(** * Record interning of the compiled execution (CompiledRecord.h)

    A shallow embedding of [souffle::detail::RecordMap], its specialisation
    for empty records, the null reference and the registry of record maps
    with [GeneralRecordMap::getRecordTable], followed by the properties of
    pack/unpack that hold on it. *)

From stdpp Require Import gmap list sorting.
From Stdlib Require Import ZArith Lia.

Local Open Scope Z_scope.

(** ** Scalars *)

(** [static const std::size_t BLOCK_SIZE = 1 << 20]. *)
Definition BLOCK_SIZE : Z := Z.shiftl 1 20.

(** [std::size_t] is taken to be the 64-bit unsigned type of an LP64 target;
    a value converted to it is reduced modulo [2^64]. *)
Definition size_t_bits : Z := 64.
Definition to_size_t (n : Z) : Z := n mod 2 ^ size_t_bits.

(** [RamDomain] is declared outside CompiledRecord.h. It is taken to be a
    signed two's complement integer type; its width is a parameter [bits] of
    everything below. *)
Definition RamDomain_max (bits : Z) : Z := 2 ^ (bits - 1) - 1.

(** Conversion of an unsigned value to [RamDomain] (wrap-around). *)
Definition to_RamDomain (bits : Z) (n : Z) : Z :=
  let m := n mod 2 ^ bits in
  if m <? 2 ^ (bits - 1) then m else m - 2 ^ bits.

(** ** Null reference *)

Definition getNull : Z := 0.

Definition isNull (ref : Z) : bool := ref =? 0.

(** ** Tuples

    What the template [RecordMap<Tuple>] asks of its tuple type: hashing and
    equality (the keys of an [unordered_map]), value initialisation (the
    cells of a fresh block) and [toVector]. *)
Class RamTuple (T : Type) `{Countable T} := {
  tuple_default : T;
  toVector : T → list Z;
}.

(** [ram::Tuple<RamDomain, n>] for n = 1, 2, 3, used in the examples. *)
#[export] Instance Tuple1 : RamTuple Z :=
  {| tuple_default := 0; toVector := λ a, [a] |}.
#[export] Instance Tuple2 : RamTuple (Z * Z) :=
  {| tuple_default := (0, 0); toVector := λ t, [t.1; t.2] |}.
#[export] Instance Tuple3 : RamTuple (Z * Z * Z) :=
  {| tuple_default := (0, 0, 0); toVector := λ t, [t.1.1; t.1.2; t.2] |}.

(** ** The record map *)

(** A block is a [std::array<tuple_type, BLOCK_SIZE>] created value
    initialised. It is represented by the finite map of the cells assigned so
    far; every other cell holds [tuple_default]. *)
Abbreviation block T := (gmap Z T).

Record RecordMap (T : Type) `{Countable T} := mkRecordMap {
  r2i : gmap T Z;          (* std::unordered_map<tuple_type, RamDomain> *)
  i2r : list (block T);    (* std::vector<std::unique_ptr<block_type>> *)
}.
Arguments mkRecordMap {T _ _} r2i i2r.
Arguments r2i {T _ _} _.
Arguments i2r {T _ _} _.

(** How a call ends: it returns, it stops at the failed [assert] (the state
    the process is in at that moment is kept), or it indexes the vector of
    blocks out of its bounds. *)
Inductive outcome (S A : Type) : Type :=
  | Return (a : A)
  | AssertionFailed (s : S)
  | OutOfBounds.
Arguments Return {S A} a.
Arguments AssertionFailed {S A} s.
Arguments OutOfBounds {S A}.

Section record_map.
Context {T : Type} `{RamTuple T}.
Variable bits : Z.

Definition new_block : block T := ∅.

Definition block_read (b : block T) (offset : Z) : T :=
  default tuple_default (b !! offset).

Definition block_write (b : block T) (offset : Z) (tuple : T) : block T :=
  <[offset := tuple]> b.

(** [RecordMap()] *)
Definition empty_map : RecordMap T := mkRecordMap ∅ [].

(** [RamDomain pack(const tuple_type& tuple)] *)
Definition pack (s : RecordMap T) (tuple : T)
    : outcome (RecordMap T) (Z * RecordMap T) :=
  match r2i s !! tuple with
  | Some index => Return (index, s)
  | None =>
      let index := to_RamDomain bits (to_size_t (Z.of_nat (size (r2i s)) + 1)) in
      let s1 := mkRecordMap (<[tuple := index]> (r2i s)) (i2r s) in
      if index =? RamDomain_max bits then AssertionFailed s1 else
      let blocks :=
        if to_size_t index / BLOCK_SIZE =? Z.of_nat (length (i2r s1))
        then i2r s1 ++ [new_block] else i2r s1 in
      let b := Z.to_nat (to_size_t index / BLOCK_SIZE) in
      match blocks !! b with
      | None => OutOfBounds
      | Some list =>
          let list' := block_write list (to_size_t index mod BLOCK_SIZE) tuple in
          Return (index, mkRecordMap (r2i s1) (<[b := list']> blocks))
      end
  end.

(** [const tuple_type& unpack(RamDomain index)]; [None] when the vector of
    blocks is indexed out of its bounds. *)
Definition unpack (s : RecordMap T) (index : Z) : option T :=
  match i2r s !! Z.to_nat (to_size_t index / BLOCK_SIZE) with
  | None => None
  | Some list => Some (block_read list (to_size_t index mod BLOCK_SIZE))
  end.

(** The tuple assigned to cell [offset] of block number [b], if that block
    exists and the cell was assigned. *)
Definition cell (s : RecordMap T) (b : nat) (offset : Z) : option T :=
  match i2r s !! b with
  | None => None
  | Some list => list !! offset
  end.

(** [getRecordReferences() const] *)
Definition getRecordReferences (s : RecordMap T) : gmap Z (list Z) :=
  map_fold (λ tuple index recordValues,
              <[index := toVector tuple]> recordValues) ∅ (r2i s).

(** A sequence of [pack] calls on one map, first to last; it stops at the
    first call that does not return. *)
Fixpoint pack_all (s : RecordMap T) (tuples : list T)
    : outcome (RecordMap T) (list Z * RecordMap T) :=
  match tuples with
  | [] => Return ([], s)
  | tuple :: rest =>
      match pack s tuple with
      | Return (index, s') =>
          match pack_all s' rest with
          | Return (indices, s'') => Return (index :: indices, s'')
          | AssertionFailed s'' => AssertionFailed s''
          | OutOfBounds => OutOfBounds
          end
      | AssertionFailed s' => AssertionFailed s'
      | OutOfBounds => OutOfBounds
      end
  end.

(** The map in which a sequence of calls on a new map ends. *)
Definition packed (tuples : list T) : RecordMap T :=
  match pack_all empty_map tuples with
  | Return (_, s) => s
  | AssertionFailed s => s
  | OutOfBounds => empty_map
  end.

(** The states a record map goes through: the constructed one and those
    left by calls of [pack] that returned. *)
Inductive reachable : RecordMap T → Prop :=
  | reachable_empty : reachable empty_map
  | reachable_pack s tuple index s' :
      reachable s → pack s tuple = Return (index, s') → reachable s'.

End record_map.

(** ** Order of first appearance *)

Section first_seen.
Context {T : Type} `{EqDecision T}.

(** The tuples seen so far, each once, in the order of their first
    appearance. *)
Definition observe (l : list T) (t : T) : list T :=
  if decide (t ∈ l) then l else l ++ [t].

Definition first_seen (tuples : list T) : list T := foldl observe [] tuples.

(** Position of the first occurrence of [t] in [l], counted from 0. *)
Fixpoint position (t : T) (l : list T) : option nat :=
  match l with
  | [] => None
  | x :: l' => if decide (x = t) then Some 0%nat else S <$> position t l'
  end.

(** [rank l t = k] when [t] is the [k]-th element of [l], counted from 1;
    0 when it does not occur. *)
Definition rank (l : list T) (t : T) : Z :=
  match position t l with
  | Some k => Z.of_nat (S k)
  | None => 0
  end.
End first_seen.

(** ** The invariant of a record map *)

Section representation.
Context {T : Type} `{RamTuple T}.
Variable bits : Z.

(** [represents l s]: [s] is the map in which the tuples of [l], all
    different, were interned in this order. *)
Record represents (l : list T) (s : RecordMap T) : Prop := {
  rep_nodup : NoDup l;
  rep_room : Z.of_nat (length l) < RamDomain_max bits;
  rep_size : size (r2i s) = length l;
  rep_r2i : ∀ t h,
    r2i s !! t = Some h ↔ ∃ k : nat, l !! k = Some t ∧ h = Z.of_nat (S k);
  rep_blocks :
    Z.of_nat (length (i2r s)) =
    if decide (l = []) then 0 else Z.of_nat (length l) / BLOCK_SIZE + 1;
  rep_cells : ∀ (b : nat) blk o t,
    i2r s !! b = Some blk →
    blk !! o = Some t ↔
    ∃ k : nat, l !! k = Some t ∧ 0 ≤ o < BLOCK_SIZE ∧
               Z.of_nat (S k) = Z.of_nat b * BLOCK_SIZE + o;
}.
End representation.
Arguments rep_nodup {T _ _ bits l s} _.
Arguments rep_room {T _ _ bits l s} _.
Arguments rep_size {T _ _ bits l s} _.
Arguments rep_r2i {T _ _ bits l s} _ _ _.
Arguments rep_blocks {T _ _ bits l s} _.
Arguments rep_cells {T _ _ bits l s} _ _ _ _ _ _.

(** ** Specialisation for empty records *)

Module EmptyRecord.
(** [ram::Tuple<RamDomain, 0>] has no field: there is one such tuple. *)
Definition Tuple0 : Type := unit.

(** [static ram::Tuple<RamDomain, 0> empty] of [unpack]. *)
Definition empty : Tuple0 := tt.

(** The class has no data member, so its methods take and leave no state. *)
Definition pack (tuple : Tuple0) : Z := 1.

Definition unpack (index : Z) : Tuple0 := empty.

Definition getRecordReferences : gmap Z (list Z) := {[ 1 := [] ]}.
End EmptyRecord.

(** ** The registry of record maps and the record table *)

Module GeneralRecordMap.
(** The base class, seen through its one virtual method. *)
Record t : Type := { getRecordReferences : gmap Z (list Z) }.

(** Iteration over a [std::map<RamDomain, ...>] goes by ascending key. *)
Definition key_le (p q : Z * list Z) : Prop := p.1 ≤ q.1.
#[export] Instance key_le_dec : RelDecision key_le := λ p q, decide (p.1 ≤ q.1).

Definition entries (m : gmap Z (list Z)) : list (Z * list Z) :=
  merge_sort key_le (map_to_list m).

Section record_table.
(** [RecordTable] and its [addRecord] are declared in RecordTable.h, outside
    CompiledRecord.h; they are parameters here. *)
Variable RecordTable : Type.
Variable addRecord : Z → list Z → RecordTable → RecordTable.

(** The objects of static storage duration: [createdMaps] of [getMaps],
    in the order of iteration of the set (the registered objects stand
    for the pointers to them), and [recordTable] of [getRecordTable]. *)
Record statics : Type := {
  createdMaps : list t;
  recordTable : RecordTable;
}.

(** [static std::set<GeneralRecordMap*>& getMaps()] *)
Definition getMaps (st : statics) : list t := createdMaps st.

(** The two nested loops of [getRecordTable]. *)
Definition add_all (maps : list t) (table : RecordTable) : RecordTable :=
  foldl (λ table recordMap,
           foldl (λ table pair, addRecord pair.1 pair.2 table)
                 table (entries (getRecordReferences recordMap)))
        table maps.

(** [static const RecordTable& getRecordTable()]: the table returned and
    the statics after the call. [created] is a local variable of the
    function, set to [false] when the call begins. *)
Definition getRecordTable (st : statics) : RecordTable * statics :=
  let created := false in
  if negb created then
    let recordTable' := add_all (getMaps st) (recordTable st) in
    (recordTable', {| createdMaps := createdMaps st;
                      recordTable := recordTable' |})
  else (recordTable st, st).

(** A method of the registered object number [i] changed its state. *)
Definition mutate (st : statics) (i : nat) (recordMap : t) : statics :=
  {| createdMaps := <[i := recordMap]> (createdMaps st);
     recordTable := recordTable st |}.
End record_table.
Arguments createdMaps {RecordTable} _.
Arguments recordTable {RecordTable} _.
Arguments getMaps {RecordTable} st.
Arguments add_all {RecordTable} addRecord maps table.
Arguments getRecordTable {RecordTable} addRecord st.
Arguments mutate {RecordTable} st i recordMap.
End GeneralRecordMap.

(** A record map seen as an object of its base class. *)
Definition as_general {T : Type} `{RamTuple T} (s : RecordMap T)
    : GeneralRecordMap.t :=
  {| GeneralRecordMap.getRecordReferences := getRecordReferences s |}.

(** Modelled from the spec: the record table of RecordTable.h, as the mapping
    keyed by reference into which the record references of every registered
    map are merged. *)
Module RecordTable.
Definition t : Type := gmap Z (list Z).
Definition addRecord (ref : Z) (tuple : list Z) (table : t) : t :=
  <[ref := tuple]> table.
End RecordTable.

(** ** Maps used in the examples *)

(** The tuples (0), (1), ..., (n - 1) of one field. *)
Definition singles (n : nat) : list Z := Z.of_nat <$> seq 0 n.

(** References of 32 bits: the map of tuples of one field that holds two
    tuples less than there are positive references. *)
Definition full_map : RecordMap Z := packed 32 (singles (Z.to_nat 2147483646)).

(** BLOCK_SIZE + 1 tuples of one field. *)
Definition boundary_tuples : list Z := singles (Z.to_nat 1048577).

(** The statics of a process that has touched the record map of tuples of
    two fields, which is in state [s], and no other. *)
Definition one_map {R : Type} (s : RecordMap (Z * Z)) (table : R)
    : GeneralRecordMap.statics R :=
  {| GeneralRecordMap.createdMaps := [as_general s];
     GeneralRecordMap.recordTable := table |}.

(** A record table that keeps every call of [addRecord], in order. *)
Definition log_record (ref : Z) (tuple : list Z) (log : list (Z * list Z))
    : list (Z * list Z) :=
  log ++ [(ref, tuple)].

(** ** Further definitions *)

(** [ram::Tuple<RamDomain, 0>] as a tuple type of the general template: one
    value, no field. *)
#[export] Instance TupleEmpty : RamTuple unit :=
  {| tuple_default := tt; toVector := λ _, [] |}.

(** The records of the tuples of [l], the first under reference 1, the second
    under reference 2, and so on. *)
Definition records_of {T : Type} `{RamTuple T} (l : list T)
    : list (Z * list Z) :=
  imap (λ (k : nat) (t : T), (Z.of_nat (S k), toVector t)) l.

(** Calling [addRecord] on a list of records, first to last. *)
Definition add_records {R : Type} (addRecord : Z → list Z → R → R)
    (records : list (Z * list Z)) (table : R) : R :=
  foldl (λ table pair, addRecord pair.1 pair.2 table) table records.

(** ** The functions of the interface and the map of a tuple type *)

Module Interface.
Section one_tuple_type.
Context {T : Type} `{RamTuple T}.
Variable bits : Z.
(** Address of the object [static RecordMap<Tuple> map] of
    [getRecordMap<Tuple>]. *)
Variable self : positive.

(** What the functions of the interface see of the process, for one tuple
    type: its record map (absent until [getRecordMap] is first called), the
    pointers of the set [createdMaps], and the record maps of the other
    tuple types, by address. *)
Record world : Type := mkWorld {
  map : option (RecordMap T);
  createdMaps : gset positive;
  others : gmap positive GeneralRecordMap.t;
}.

(** [GeneralRecordMap() { getMaps().insert(this); }] *)
Definition construct (this : positive) (w : world) : world :=
  mkWorld (map w) ({[ this ]} ∪ createdMaps w) (others w).

(** [RecordMap<Tuple>& getRecordMap()]: the map, constructed by the first
    call. *)
Definition getRecordMap (w : world) : RecordMap T * world :=
  match map w with
  | Some m => (m, w)
  | None =>
      (empty_map,
       construct self (mkWorld (Some empty_map) (createdMaps w) (others w)))
  end.

(** [RamDomain pack(const Tuple& tuple)] *)
Definition pack (w : world) (tuple : T) : outcome world (Z * world) :=
  let (m, w1) := getRecordMap w in
  match pack bits m tuple with
  | Return (index, m') =>
      Return (index, mkWorld (Some m') (createdMaps w1) (others w1))
  | AssertionFailed m' =>
      AssertionFailed (mkWorld (Some m') (createdMaps w1) (others w1))
  | OutOfBounds => OutOfBounds
  end.

(** [const Tuple& unpack(RamDomain ref)] *)
Definition unpack (w : world) (ref : Z) : option T * world :=
  let (m, w1) := getRecordMap w in (unpack m ref, w1).

(** The object a registered pointer points to. *)
Definition object_at (w : world) (this : positive)
    : option GeneralRecordMap.t :=
  if decide (this = self) then as_general <$> map w else others w !! this.

(** The registered maps in the order of iteration of the set of pointers,
    that is by ascending address. *)
Definition registered_maps (w : world) : list GeneralRecordMap.t :=
  omap (object_at w) (merge_sort Pos.le (elements (createdMaps w))).

(** The statics [getRecordTable] works on. *)
Definition statics {R : Type} (w : world) (table : R)
    : GeneralRecordMap.statics R :=
  {| GeneralRecordMap.createdMaps := registered_maps w;
     GeneralRecordMap.recordTable := table |}.

(** The worlds the calls of [pack] and [unpack] lead to, from a world in
    which [getRecordMap] was not called yet. *)
Inductive reached : world → Prop :=
  | reached_start w :
      map w = None → self ∉ createdMaps w → reached w
  | reached_pack w tuple index w' :
      reached w → pack w tuple = Return (index, w') → reached w'
  | reached_unpack w ref :
      reached w → reached (unpack w ref).2.

(** [follows w w']: calls of [pack] that return and calls of [unpack] lead
    from [w] to [w']. *)
Inductive follows : world → world → Prop :=
  | follows_refl w : follows w w
  | follows_pack w1 w2 tuple index w3 :
      follows w1 w2 → pack w2 tuple = Return (index, w3) → follows w1 w3
  | follows_unpack w1 w2 ref :
      follows w1 w2 → follows w1 (unpack w2 ref).2.
End one_tuple_type.
End Interface.

(** A world in which no call of the interface was made yet, for tuples of two
    fields, with no other map. *)
Definition start_world : Interface.world (T := Z * Z) :=
  Interface.mkWorld None ∅ ∅.

(** * Properties *)

Example scenario_a :
  pack_all 32 empty_map [(1, 2, 3); (1, 2, 3); (4, 5, 6)]
  = Return ([1; 1; 2],
            mkRecordMap {[ (1, 2, 3) := 1; (4, 5, 6) := 2 ]}
                        [ {[ 1 := (1, 2, 3); 2 := (4, 5, 6) ]} ]).
Proof. vm_compute. reflexivity. Qed.

(** ** Arithmetic of the conversions and of the addressing *)

Lemma BLOCK_SIZE_eq : BLOCK_SIZE = 1048576.
Proof. reflexivity. Qed.

Lemma to_size_t_small n : 0 ≤ n < 2 ^ 64 → to_size_t n = n.
Proof. intros Hn. unfold to_size_t, size_t_bits. apply Z.mod_small. lia. Qed.

Lemma RamDomain_max_lt bits : 1 < bits ≤ 64 → 0 < RamDomain_max bits < 2 ^ 63.
Proof.
  intros Hb. unfold RamDomain_max.
  assert (2 ^ 1 ≤ 2 ^ (bits - 1)) by (apply Z.pow_le_mono_r; lia).
  assert (2 ^ (bits - 1) ≤ 2 ^ 63) by (apply Z.pow_le_mono_r; lia).
  lia.
Qed.

Lemma to_RamDomain_small bits n :
  1 < bits → 0 ≤ n ≤ RamDomain_max bits → to_RamDomain bits n = n.
Proof.
  intros Hb Hn. unfold to_RamDomain, RamDomain_max in *.
  assert (Hp : 2 ^ bits = 2 * 2 ^ (bits - 1)).
  { rewrite <- Z.pow_succ_r by lia. f_equal. lia. }
  rewrite Z.mod_small by lia.
  destruct (Z.ltb_spec n (2 ^ (bits - 1))); lia.
Qed.

(** The reference [r2i.size() + 1] of a map that holds [n] tuples. *)
Lemma next_index bits (n : nat) :
  1 < bits ≤ 64 → Z.of_nat n < RamDomain_max bits →
  to_RamDomain bits (to_size_t (Z.of_nat n + 1)) = Z.of_nat n + 1.
Proof.
  intros Hb Hn. pose proof (RamDomain_max_lt bits Hb).
  rewrite to_size_t_small by lia. apply to_RamDomain_small; lia.
Qed.

Lemma slot_unique b o x :
  0 ≤ o < BLOCK_SIZE → x = b * BLOCK_SIZE + o →
  x / BLOCK_SIZE = b ∧ x mod BLOCK_SIZE = o.
Proof.
  intros Ho ->. split.
  - symmetry. apply (Z.div_unique _ _ b o); lia.
  - symmetry. apply (Z.mod_unique _ _ b o); lia.
Qed.

Lemma slot_decompose x :
  x = x / BLOCK_SIZE * BLOCK_SIZE + x mod BLOCK_SIZE ∧
  0 ≤ x mod BLOCK_SIZE < BLOCK_SIZE.
Proof.
  rewrite BLOCK_SIZE_eq. split.
  - rewrite Z.mul_comm. apply Z.div_mod. lia.
  - apply Z.mod_pos_bound. lia.
Qed.

Lemma block_of_succ n :
  0 ≤ n →
  (n + 1) / BLOCK_SIZE = n / BLOCK_SIZE ∨
  (n + 1) / BLOCK_SIZE = n / BLOCK_SIZE + 1.
Proof.
  intros Hn. rewrite BLOCK_SIZE_eq.
  assert (n / 1048576 ≤ (n + 1) / 1048576) by (apply Z.div_le_mono; lia).
  assert ((n + 1) / 1048576 ≤ (n + 1048576) / 1048576) by (apply Z.div_le_mono; lia).
  replace (n + 1048576) with (n + 1 * 1048576) in * by lia.
  rewrite Z.div_add in * by lia. lia.
Qed.

(** ** The invariant is kept by [pack] *)

Section invariant.
Context {T : Type} `{RamTuple T}.
Variable bits : Z.
Hypothesis bits_range : 1 < bits ≤ 64.
Abbreviation represents := (represents bits).

Lemma represents_empty : represents [] (empty_map : RecordMap T).
Proof.
  pose proof (RamDomain_max_lt bits bits_range).
  split; simpl; try done.
  - constructor.
  - lia.
  - intros t h. rewrite lookup_empty. split; [done|]. intros (k & Hk & _).
    by rewrite lookup_nil in Hk.
Qed.

Lemma represents_lookup_None (l : list T) s t :
  represents l s → t ∉ l → r2i s !! t = None.
Proof.
  intros Hr Ht. destruct (r2i s !! t) as [h|] eqn:E; [|done].
  apply (rep_r2i Hr) in E as (k & Hk & _).
  exfalso. apply Ht. eapply list_elem_of_lookup_2. eauto.
Qed.

(** Packing a tuple that is already there. *)
Lemma pack_known (l : list T) s t (k : nat) :
  represents l s → l !! k = Some t →
  pack bits s t = Return (Z.of_nat (S k), s).
Proof.
  intros Hr Hk. unfold pack.
  assert (r2i s !! t = Some (Z.of_nat (S k))) as ->; [|done].
  apply (rep_r2i Hr). eauto.
Qed.

(** Packing a new tuple when the next reference is the largest value. *)
Lemma pack_exhausted (s : RecordMap T) t :
  r2i s !! t = None →
  Z.of_nat (size (r2i s)) + 1 = RamDomain_max bits →
  pack bits s t =
  AssertionFailed (mkRecordMap (<[t := RamDomain_max bits]> (r2i s)) (i2r s)).
Proof.
  intros Hnone Hsz. unfold pack. rewrite Hnone.
  pose proof (RamDomain_max_lt bits bits_range).
  rewrite Hsz, to_size_t_small by lia.
  rewrite to_RamDomain_small by lia.
  by rewrite Z.eqb_refl.
Qed.

(** Packing a new tuple when there is room for its reference. *)
Lemma pack_fresh (l : list T) s t :
  represents l s → t ∉ l →
  Z.of_nat (length l) + 1 < RamDomain_max bits →
  ∃ s', pack bits s t = Return (Z.of_nat (S (length l)), s') ∧
        represents (l ++ [t]) s'.
Proof.
  intros Hr Ht Hroom.
  pose proof (RamDomain_max_lt bits bits_range) as Hmax.
  pose proof (represents_lookup_None _ _ _ Hr Ht) as Hnone.
  destruct Hr as [Hnd _ Hsz Hr2i Hblocks Hcells].
  set (n := length l) in *.
  set (h := Z.of_nat n + 1).
  assert (Hh : to_RamDomain bits (to_size_t (Z.of_nat (size (r2i s)) + 1)) = h).
  { rewrite Hsz. apply next_index; [done|lia]. }
  assert (Hsh : to_size_t h = h) by (apply to_size_t_small; lia).
  unfold pack. rewrite Hnone. cbv zeta. rewrite Hh, Hsh. simpl i2r. simpl r2i.
  destruct (Z.eqb_spec h (RamDomain_max bits)) as [|_]; [lia|].
  destruct (slot_decompose h) as [Hdec Hoff].
  set (b := h / BLOCK_SIZE) in *. set (o := h mod BLOCK_SIZE) in *.
  assert (Hb0 : 0 ≤ b) by (apply Z.div_pos; [lia | rewrite BLOCK_SIZE_eq; lia]).
  assert (Hnil : n = 0%nat → Z.of_nat (length (i2r s)) = 0).
  { intros E. apply nil_length_inv in E. by rewrite decide_True in Hblocks. }
  assert (Hcons : n ≠ 0%nat →
                  Z.of_nat (length (i2r s)) = Z.of_nat n / BLOCK_SIZE + 1).
  { intros E. rewrite decide_False in Hblocks; [done|].
    intros ->. by apply E. }
  clear Hblocks.
  assert (Hn1 : h = 1 → b = 0).
  { intros E. unfold b. rewrite E, BLOCK_SIZE_eq. reflexivity. }
  assert (Hgrow : ∃ blocks,
    (if b =? Z.of_nat (length (i2r s)) then i2r s ++ [new_block] else i2r s)
      = blocks ∧
    Z.of_nat (length blocks) = b + 1 ∧
    ∀ (b' : nat) blk o' t',
      blocks !! b' = Some blk →
      blk !! o' = Some t' ↔
      ∃ k : nat, l !! k = Some t' ∧ 0 ≤ o' < BLOCK_SIZE ∧
                 Z.of_nat (S k) = Z.of_nat b' * BLOCK_SIZE + o').
  { destruct (Z.eqb_spec b (Z.of_nat (length (i2r s)))) as [Eb|Eb].
    - eexists; split; [reflexivity|]. split.
      { rewrite length_app. simpl. lia. }
      intros b' blk o' t' Hb'.
      apply lookup_app_Some in Hb' as [Hb'|[Hge Hb']]; [by apply Hcells|].
      apply list_lookup_singleton_Some in Hb' as [Hb' <-].
      unfold new_block. rewrite lookup_empty. split; [done|].
      intros (k & Hk & Ho' & Hslot). exfalso.
      apply lookup_lt_Some in Hk. fold n in Hk.
      assert (Z.of_nat b' = b) by lia.
      rewrite Hcons in Eb by lia.
      destruct (slot_decompose (Z.of_nat n)) as [Hdn Hon]. nia.
    - eexists; split; [reflexivity|]. split; [|exact Hcells].
      destruct (decide (n = 0%nat)) as [En|En].
      + exfalso. apply Eb. rewrite Hnil by done. apply Hn1. unfold h. lia.
      + rewrite Hcons by done.
        destruct (block_of_succ (Z.of_nat n)) as [E|E]; [lia| |];
          fold h b in E; lia. }
  destruct Hgrow as (blocks & -> & Hlen & Hcells').
  assert (Hhn : h = Z.of_nat n + 1) by done.
  assert (Hbq : h / BLOCK_SIZE = b) by done.
  clearbody b o h.
  destruct (lookup_lt_is_Some_2 blocks (Z.to_nat b)) as [blk0 Hblk0]; [lia|].
  rewrite Hblk0. eexists. split.
  { do 2 f_equal. lia. }
  assert (Hlast : ∀ (k : nat) t',
    (l ++ [t]) !! k = Some t' ↔
    l !! k = Some t' ∨ (k = n ∧ t' = t)).
  { clear. intros k t'. rewrite lookup_app_Some, list_lookup_singleton_Some.
    fold n. split.
    - intros [Hk|(Hge & Hk & ->)]; [by left|right]. split; [lia|done].
    - intros [Hk|[-> ->]]; [by left|right]. split; [lia|]. split; [lia|done]. }
  split; cbn [r2i i2r].
  - apply NoDup_app. split; [done|]. split; [|apply NoDup_singleton].
    intros x Hx ->%list_elem_of_singleton. done.
  - rewrite length_app. simpl. fold n. lia.
  - rewrite map_size_insert_None by done. rewrite length_app. simpl. lia.
  - intros t' h'. rewrite lookup_insert. case_decide as Et.
    + subst t'. split.
      * intros [= <-]. exists n. split; [apply Hlast; auto|lia].
      * intros (k & Hk & ->). apply Hlast in Hk as [Hk|[-> _]].
        -- exfalso. apply Ht. eapply list_elem_of_lookup_2. eauto.
        -- f_equal. lia.
    + rewrite Hr2i. split; intros (k & Hk & ->); exists k; split; try done.
      * apply Hlast. auto.
      * apply Hlast in Hk as [Hk|[_ ->]]; done.
  - rewrite length_insert, length_app. simpl. fold n.
    rewrite decide_False by (by destruct l).
    replace (Z.of_nat (n + 1)) with h by lia. rewrite Hbq. lia.
  - intros b' blk o' t' Hb'.
    destruct (decide (b' = Z.to_nat b)) as [->|Hne].
    + rewrite list_lookup_insert_eq in Hb' by lia. injection Hb' as <-.
      rewrite Z2Nat.id by done.
      unfold block_write. rewrite lookup_insert. case_decide as Eo.
      * subst o'. split.
        -- intros [= <-]. exists n. split; [apply Hlast; auto|].
           split; [done|]. lia.
        -- intros (k & Hk & _ & Hslot).
           apply Hlast in Hk as [Hk|[_ ->]]; [|done].
           apply lookup_lt_Some in Hk. fold n in Hk. lia.
      * rewrite (Hcells' _ _ _ _ Hblk0), Z2Nat.id by done.
        split; intros (k & Hk & Ho' & Hslot); exists k; split; try done.
        -- apply Hlast. auto.
        -- apply Hlast in Hk as [Hk|[-> _]]; [done|]. lia.
    + rewrite list_lookup_insert_ne in Hb' by done.
      rewrite (Hcells' _ _ _ _ Hb').
      split; intros (k & Hk & Ho' & Hslot); exists k; split; try done.
      * apply Hlast. auto.
      * apply Hlast in Hk as [Hk|[-> _]]; [done|]. exfalso. apply Hne.
        destruct (slot_unique (Z.of_nat b') o' h) as [Hq _]; [done|lia|].
        lia.
Qed.

(** The three ways a call of [pack] can go on a map that satisfies the
    invariant. *)
Lemma pack_cases (l : list T) s t :
  represents l s →
  (∃ k : nat, l !! k = Some t ∧ pack bits s t = Return (Z.of_nat (S k), s)) ∨
  ((t ∉ l) ∧ Z.of_nat (length l) + 1 = RamDomain_max bits ∧
   pack bits s t =
   AssertionFailed (mkRecordMap (<[t := RamDomain_max bits]> (r2i s)) (i2r s))) ∨
  ((t ∉ l) ∧ Z.of_nat (length l) + 1 < RamDomain_max bits ∧
   ∃ s', pack bits s t = Return (Z.of_nat (S (length l)), s') ∧
         represents (l ++ [t]) s').
Proof.
  intros Hr. destruct (decide (t ∈ l)) as [Hin|Hnin].
  - left. apply list_elem_of_lookup_1 in Hin as [k Hk].
    exists k. split; [done|]. by eapply pack_known.
  - right. pose proof (rep_room Hr) as Hroom.
    destruct (decide (Z.of_nat (length l) + 1 = RamDomain_max bits)) as [E|E].
    + left. split; [done|]. split; [done|]. apply pack_exhausted.
      * by eapply represents_lookup_None.
      * by rewrite (rep_size Hr).
    + right. split; [done|]. split; [lia|]. apply pack_fresh; [done..|lia].
Qed.

Lemma reachable_represents (s : RecordMap T) : reachable bits s → ∃ l, represents l s.
Proof.
  induction 1 as [|s t h s' _ [l Hr] Hpack].
  - exists []. apply represents_empty.
  - destruct (pack_cases l s t Hr)
      as [(k & _ & E)|[(_ & _ & E)|(_ & _ & s'' & E & Hr')]];
      rewrite E in Hpack; [|done|].
    + injection Hpack as _ <-. by exists l.
    + injection Hpack as _ <-. by exists (l ++ [t]).
Qed.

(** Reading the reference of the tuple at position [k]. *)
Lemma unpack_represents (l : list T) s t (k : nat) :
  represents l s → l !! k = Some t → unpack s (Z.of_nat (S k)) = Some t.
Proof.
  intros Hr Hk. pose proof (RamDomain_max_lt bits bits_range) as Hmax.
  pose proof (rep_room Hr) as Hroom.
  pose proof (lookup_lt_Some _ _ _ Hk) as Hlt.
  set (h := Z.of_nat (S k)).
  assert (Hh : 1 ≤ h ≤ Z.of_nat (length l)) by (unfold h; lia).
  unfold unpack. rewrite to_size_t_small by lia.
  destruct (slot_decompose h) as [Hdec Hoff].
  assert (Hb0 : 0 ≤ h / BLOCK_SIZE).
  { apply Z.div_pos; [lia | rewrite BLOCK_SIZE_eq; lia]. }
  assert (Hble : h / BLOCK_SIZE ≤ Z.of_nat (length l) / BLOCK_SIZE).
  { apply Z.div_le_mono; [rewrite BLOCK_SIZE_eq|]; lia. }
  pose proof (rep_blocks Hr) as Hblocks.
  rewrite decide_False in Hblocks by (intros ->; simpl in Hlt; lia).
  destruct (lookup_lt_is_Some_2 (i2r s) (Z.to_nat (h / BLOCK_SIZE)))
    as [blk Hblk]; [lia|].
  rewrite Hblk. f_equal. unfold block_read.
  assert (blk !! (h mod BLOCK_SIZE) = Some t) as ->; [|done].
  apply (rep_cells Hr _ _ _ _ Hblk). exists k.
  split; [done|]. split; [done|]. rewrite Z2Nat.id by done. exact Hdec.
Qed.

(** The cells assigned are those of the references handed out. *)
Lemma cell_represents (l : list T) s (b : nat) o t :
  represents l s →
  cell s b o = Some t ↔
  ∃ k : nat, l !! k = Some t ∧ 0 ≤ o < BLOCK_SIZE ∧
             Z.of_nat (S k) = Z.of_nat b * BLOCK_SIZE + o.
Proof.
  intros Hr. unfold cell. destruct (i2r s !! b) as [blk|] eqn:Hb.
  - by apply (rep_cells Hr).
  - split; [done|]. intros (k & Hk & Ho & Hslot). exfalso.
    apply lookup_ge_None_1 in Hb. apply lookup_lt_Some in Hk.
    pose proof (rep_blocks Hr) as Hblocks.
    rewrite decide_False in Hblocks by (intros ->; simpl in Hk; lia).
    destruct (slot_unique (Z.of_nat b) o (Z.of_nat (S k))) as [Hq _];
      [done..|].
    assert (Z.of_nat (S k) / BLOCK_SIZE ≤ Z.of_nat (length l) / BLOCK_SIZE).
    { apply Z.div_le_mono; [rewrite BLOCK_SIZE_eq|]; lia. }
    lia.
Qed.
End invariant.

(** ** Lemmas on the order of first appearance *)

Section first_seen_lemmas.
Context {T : Type} `{EqDecision T}.

Lemma position_lookup (l : list T) t (k : nat) :
  NoDup l → l !! k = Some t → position t l = Some k.
Proof.
  intros Hnd. revert k. induction Hnd as [|x l Hx Hnd IH]; intros k Hk.
  - by rewrite lookup_nil in Hk.
  - destruct k as [|k]; simpl in *.
    + injection Hk as ->. by rewrite decide_True.
    + rewrite decide_False.
      * by rewrite (IH k Hk).
      * intros ->. apply Hx. by eapply list_elem_of_lookup_2.
Qed.

Lemma position_Some (l : list T) t k : position t l = Some k → l !! k = Some t.
Proof.
  revert k. induction l as [|x l IH]; intros k; simpl; [done|].
  case_decide as E.
  - intros [= <-]. by subst.
  - destruct (position t l) as [k'|]; simpl; [|done].
    intros [= <-]. by apply IH.
Qed.

Lemma position_None (l : list T) t : position t l = None ↔ t ∉ l.
Proof.
  induction l as [|x l IH]; simpl.
  - split; [intros _; apply not_elem_of_nil|done].
  - rewrite not_elem_of_cons. case_decide as E.
    + split; [done|]. intros [Hne _]. by destruct Hne.
    + destruct (position t l); simpl.
      * split; [done|]. intros [_ Hn]. by apply IH in Hn.
      * split; [|done]. intros _. split; [done|]. by apply IH.
Qed.

Lemma rank_lookup (l : list T) t (k : nat) :
  NoDup l → l !! k = Some t → rank l t = Z.of_nat (S k).
Proof. intros Hnd Hk. unfold rank. by rewrite (position_lookup l t k). Qed.

Lemma observe_prefix (l : list T) t : l `prefix_of` observe l t.
Proof. unfold observe. case_decide; [done|]. by apply prefix_app_r. Qed.

Lemma foldl_observe_prefix (l : list T) tuples : l `prefix_of` foldl observe l tuples.
Proof.
  revert l. induction tuples as [|t tuples IH]; intros l; simpl; [done|].
  etrans; [apply observe_prefix|apply IH].
Qed.

Lemma observe_elem (l : list T) t : t ∈ observe l t.
Proof. unfold observe. case_decide; [done|]. set_solver. Qed.

Lemma foldl_observe_NoDup_app (l : list T) tuples :
  NoDup (l ++ tuples) → foldl observe l tuples = l ++ tuples.
Proof.
  revert l. induction tuples as [|t tuples IH]; intros l Hnd; simpl.
  - by rewrite app_nil_r.
  - assert (Ht : t ∉ l).
    { apply NoDup_app in Hnd as (_ & Hd & _). intros Hin.
      apply (Hd _ Hin). set_solver. }
    unfold observe at 2. rewrite decide_False by done.
    rewrite IH; rewrite <- app_assoc; done.
Qed.

Lemma first_seen_NoDup (tuples : list T) : NoDup tuples → first_seen tuples = tuples.
Proof. intros Hnd. by apply (foldl_observe_NoDup_app []). Qed.
Lemma elem_of_observe (l : list T) t x : x ∈ observe l t ↔ x ∈ l ∨ x = t.
Proof.
  unfold observe. case_decide as E.
  - split; [by left|]. by intros [?| ->].
  - rewrite elem_of_app, list_elem_of_singleton. done.
Qed.

Lemma elem_of_foldl_observe (l : list T) tuples x :
  x ∈ foldl observe l tuples ↔ x ∈ l ∨ x ∈ tuples.
Proof.
  revert l. induction tuples as [|t tuples IH]; intros l; simpl.
  - rewrite elem_of_nil. tauto.
  - rewrite IH, elem_of_observe, elem_of_cons. tauto.
Qed.

Lemma elem_of_first_seen (tuples : list T) x :
  x ∈ first_seen tuples ↔ x ∈ tuples.
Proof.
  unfold first_seen. rewrite elem_of_foldl_observe, elem_of_nil. tauto.
Qed.

(** A tuple that appears for the first time at position [i] comes right
    after the distinct tuples of the first [i] calls. *)
Lemma first_seen_new (tuples : list T) (i : nat) t :
  tuples !! i = Some t → t ∉ take i tuples →
  first_seen tuples !! length (first_seen (take i tuples)) = Some t.
Proof.
  intros Hi Hnew.
  assert (first_seen tuples =
          foldl observe (observe (first_seen (take i tuples)) t)
                (drop (S i) tuples)) as ->.
  { unfold first_seen. rewrite <- (take_drop_middle tuples i t Hi) at 1.
    by rewrite foldl_app. }
  eapply prefix_lookup_Some; [|apply foldl_observe_prefix].
  unfold observe. rewrite decide_False by (by rewrite elem_of_first_seen).
  rewrite lookup_app_r by lia. by rewrite Nat.sub_diag.
Qed.

End first_seen_lemmas.

(** ** Sequences of calls *)

Section sequences.
Context {T : Type} `{RamTuple T}.
Variable bits : Z.
Hypothesis bits_range : 1 < bits ≤ 64.

Lemma observe_known (l : list T) t : t ∈ l → observe l t = l.
Proof. intros Hin. unfold observe. by rewrite decide_True. Qed.

Lemma observe_fresh (l : list T) t : t ∉ l → observe l t = l ++ [t].
Proof. intros Hin. unfold observe. by rewrite decide_False. Qed.

Lemma pack_all_represents (l : list T) s tuples indices s' :
  represents bits l s →
  pack_all bits s tuples = Return (indices, s') →
  represents bits (foldl observe l tuples) s' ∧
  indices = rank (foldl observe l tuples) <$> tuples.
Proof.
  revert l s indices. induction tuples as [|t tuples IH];
    intros l s indices Hr Hrun; simpl in *.
  - by injection Hrun as <- <-.
  - assert (Hstep : ∃ k s1,
      pack bits s t = Return (Z.of_nat (S k), s1) ∧
      observe l t !! k = Some t ∧ represents bits (observe l t) s1).
    { destruct (pack_cases bits bits_range l s t Hr)
        as [(k & Hk & E)|[(_ & _ & E)|(Hnin & _ & s1 & E & Hr1)]].
      - exists k, s. rewrite observe_known by (by eapply list_elem_of_lookup_2).
        done.
      - by rewrite E in Hrun.
      - exists (length l), s1. rewrite observe_fresh by done.
        split; [done|]. split; [|done].
        rewrite lookup_app_r by lia. by rewrite Nat.sub_diag. }
    destruct Hstep as (k & s1 & E & Hk & Hr1). rewrite E in Hrun.
    destruct (pack_all bits s1 tuples) as [[indices' s2]| |] eqn:Erest;
      [|done..].
    injection Hrun as <- <-.
    destruct (IH _ _ _ Hr1 Erest) as [Hr2 ->]. split; [done|].
    f_equal. symmetry. apply rank_lookup; [apply (rep_nodup Hr2)|].
    eapply prefix_lookup_Some; [done|apply foldl_observe_prefix].
Qed.

Lemma pack_all_returns (l : list T) s tuples :
  represents bits l s →
  Z.of_nat (length (foldl observe l tuples)) < RamDomain_max bits →
  ∃ indices s', pack_all bits s tuples = Return (indices, s').
Proof.
  revert l s. induction tuples as [|t tuples IH]; intros l s Hr Hroom;
    simpl in *; [by eauto|].
  pose proof (prefix_length _ _ (foldl_observe_prefix (observe l t) tuples))
    as Hlen.
  destruct (pack_cases bits bits_range l s t Hr)
    as [(k & Hk & E)|[(Hnin & Hfull & _)|(Hnin & _ & s1 & E & Hr1)]].
  - rewrite E. rewrite observe_known in Hroom by (by eapply list_elem_of_lookup_2).
    destruct (IH _ _ Hr Hroom) as (indices & s' & ->). eauto.
  - rewrite observe_fresh in Hlen, Hroom by done.
    rewrite length_app in Hlen. simpl in Hlen. lia.
  - rewrite E. rewrite observe_fresh in Hroom by done.
    destruct (IH _ _ Hr1 Hroom) as (indices & s' & ->). eauto.
Qed.

Lemma pack_all_reachable (s : RecordMap T) tuples indices s' :
  reachable bits s → pack_all bits s tuples = Return (indices, s') →
  reachable bits s'.
Proof.
  revert s indices. induction tuples as [|t tuples IH];
    intros s indices Hs Hrun; simpl in *.
  - by injection Hrun as _ <-.
  - destruct (pack bits s t) as [[h s1]| |] eqn:E; [|done..].
    destruct (pack_all bits s1 tuples) as [[indices' s2]| |] eqn:Erest;
      [|done..].
    injection Hrun as _ <-. eapply IH; [|done]. by eapply reachable_pack.
Qed.
End sequences.

(** ** pack and unpack on the maps that can be reached *)

Section interning.
Context {T : Type} `{RamTuple T}.
Variable bits : Z.
Hypothesis bits_range : 1 < bits ≤ 64.

(** A call that returns hands out the position, counted from 1, of the tuple
    in the order of first appearance. *)
Lemma pack_returns_rank (l : list T) s t h s' :
  represents bits l s → pack bits s t = Return (h, s') →
  ∃ k : nat, represents bits (observe l t) s' ∧
             observe l t !! k = Some t ∧ h = Z.of_nat (S k).
Proof.
  intros Hr Hpack.
  destruct (pack_cases bits bits_range l s t Hr)
    as [(k & Hk & E)|[(_ & _ & E)|(Hnin & _ & s1 & E & Hr1)]];
    rewrite E in Hpack; [|done|]; injection Hpack as <- <-.
  - exists k. by rewrite observe_known by (by eapply list_elem_of_lookup_2).
  - exists (length l). rewrite observe_fresh by done.
    split; [done|]. split; [|done].
    rewrite lookup_app_r by lia. by rewrite Nat.sub_diag.
Qed.

Lemma pack_all_empty_represents (tuples : list T) indices s :
  pack_all bits empty_map tuples = Return (indices, s) →
  represents bits (first_seen tuples) s ∧
  indices = rank (first_seen tuples) <$> tuples.
Proof.
  apply (pack_all_represents bits bits_range []).
  by apply represents_empty.
Qed.

(** A hit in the forward index: nothing is changed. *)
Lemma pack_found (s : RecordMap T) t h :
  r2i s !! t = Some h → pack bits s t = Return (h, s).
Proof. intros Hfound. unfold pack. by rewrite Hfound. Qed.

(** After a call that returned, the tuple is in the forward index under the
    reference returned. *)
Lemma pack_returned_found (s : RecordMap T) t h s' :
  pack bits s t = Return (h, s') → r2i s' !! t = Some h.
Proof.
  unfold pack. destruct (r2i s !! t) as [h0|] eqn:Hfound.
  - by intros [= <- <-].
  - cbv zeta. destruct (_ =? RamDomain_max bits); [done|].
    cbn [r2i i2r].
    match goal with
    | |- context [@lookup nat _ _ _ ?i ?blocks] =>
        destruct (@lookup nat _ _ _ i blocks) as [blk|]; [|done]
    end.
    intros [= <- <-]. cbn [r2i]. apply lookup_insert_eq.
Qed.

(** Any number of calls on one tuple, one after the other: once the first
    has returned, the others return its reference and change nothing. *)
Lemma pack_all_replicate (s : RecordMap T) t h s' (n : nat) :
  pack bits s t = Return (h, s') →
  pack_all bits s (replicate (S n) t) = Return (replicate (S n) h, s').
Proof.
  intros Hpack. simpl. rewrite Hpack.
  assert (Hrest : pack_all bits s' (replicate n t) = Return (replicate n h, s')).
  { apply pack_returned_found in Hpack. induction n as [|n IH]; simpl; [done|].
    by rewrite (pack_found s' t h Hpack), IH. }
  by rewrite Hrest.
Qed.

(** C4: round trip. A call of pack that returns leaves a map in which unpack
    of the returned reference gives back the tuple; and after packing
    BLOCK_SIZE + 1 different tuples into a new map, with a reference domain
    that has room for them, references 1 and BLOCK_SIZE + 1 unpack to the
    first and to the last of them, the latter from a second block. *)
Theorem unpack_pack_round_trip :
  (∀ (s : RecordMap T) t h s',
     reachable bits s → pack bits s t = Return (h, s') →
     unpack s' h = Some t) ∧
  (∀ tuples : list T,
     NoDup tuples → Z.of_nat (length tuples) = BLOCK_SIZE + 1 →
     BLOCK_SIZE + 1 < RamDomain_max bits →
     ∃ indices s t1 t2,
       pack_all bits empty_map tuples = Return (indices, s) ∧
       tuples !! 0%nat = Some t1 ∧ tuples !! Z.to_nat BLOCK_SIZE = Some t2 ∧
       indices !! 0%nat = Some 1 ∧
       indices !! Z.to_nat BLOCK_SIZE = Some (BLOCK_SIZE + 1) ∧
       unpack s 1 = Some t1 ∧ unpack s (BLOCK_SIZE + 1) = Some t2 ∧
       length (i2r s) = 2%nat).
Proof.
  split.
  - intros s t h s' Hs Hpack.
    destruct (reachable_represents bits bits_range s Hs) as [l Hr].
    destruct (pack_returns_rank l s t h s' Hr Hpack) as (k & Hr' & Hk & ->).
    by eapply unpack_represents.
  - intros tuples Hnd Hlen Hroom.
    pose proof BLOCK_SIZE_eq as HB.
    destruct (pack_all_returns bits bits_range [] empty_map tuples)
      as (indices & s & Hrun).
    { by apply represents_empty. }
    { fold (first_seen tuples). rewrite first_seen_NoDup by done. lia. }
    destruct (pack_all_empty_represents tuples indices s Hrun) as [Hr Hidx].
    rewrite first_seen_NoDup in Hr, Hidx by done.
    destruct (lookup_lt_is_Some_2 tuples 0%nat) as [t1 Ht1]; [lia|].
    destruct (lookup_lt_is_Some_2 tuples (Z.to_nat BLOCK_SIZE)) as [t2 Ht2];
      [lia|].
    exists indices, s, t1, t2.
    assert (Hone : Z.of_nat 1 = 1) by done.
    assert (Hlast : Z.of_nat (S (Z.to_nat BLOCK_SIZE)) = BLOCK_SIZE + 1) by lia.
    split; [done|]. split; [done|]. split; [done|].
    split; [|split; [|split; [|split]]].
    + rewrite Hidx, list_lookup_fmap, Ht1. simpl. f_equal.
      by rewrite (rank_lookup tuples t1 0).
    + rewrite Hidx, list_lookup_fmap, Ht2. simpl. f_equal.
      rewrite <- Hlast. by apply rank_lookup.
    + rewrite <- Hone. by eapply unpack_represents.
    + rewrite <- Hlast. by eapply unpack_represents.
    + pose proof (rep_blocks Hr) as Hblocks.
      rewrite decide_False in Hblocks by (intros ->; simpl in Hlen; lia).
      rewrite Hlen in Hblocks.
      replace (BLOCK_SIZE + 1) with (1 + 1 * BLOCK_SIZE) in Hblocks by lia.
      rewrite Z.div_add in Hblocks by lia.
      rewrite Z.div_small in Hblocks by lia. lia.
Qed.

(** C5: density, order and injectivity of the references. In a sequence of
    calls on a new map that all return, the call whose tuple is the k-th
    distinct one (in the order of first appearance, k counted from 0) returns
    k + 1; a tuple not seen before receives the number of distinct tuples seen
    before it plus one; the references returned are at least 1, fill the
    range from 1 to the number of distinct tuples, and two calls return the
    same reference exactly when they pack the same tuple. Every call returns
    as long as the number of distinct tuples stays below the largest value
    of the reference domain. *)
Theorem handles_dense_ordered_injective :
  (∀ (tuples : list T) indices s,
     pack_all bits empty_map tuples = Return (indices, s) →
     length indices = length tuples ∧
     (∀ (i k : nat) t,
        tuples !! i = Some t → first_seen tuples !! k = Some t →
        indices !! i = Some (Z.of_nat k + 1)) ∧
     (∀ (i : nat) t,
        tuples !! i = Some t → t ∉ take i tuples →
        indices !! i =
        Some (Z.of_nat (length (first_seen (take i tuples))) + 1)) ∧
     (∀ (i : nat) h,
        indices !! i = Some h →
        1 ≤ h ≤ Z.of_nat (length (first_seen tuples))) ∧
     (∀ h, 1 ≤ h ≤ Z.of_nat (length (first_seen tuples)) → h ∈ indices) ∧
     (∀ (i j : nat) t1 t2 h1 h2,
        tuples !! i = Some t1 → tuples !! j = Some t2 →
        indices !! i = Some h1 → indices !! j = Some h2 →
        (h1 = h2 ↔ t1 = t2))) ∧
  (∀ tuples : list T,
     Z.of_nat (length (first_seen tuples)) < RamDomain_max bits →
     ∃ indices s, pack_all bits empty_map tuples = Return (indices, s)).
Proof.
  split.
  - intros tuples indices s Hrun.
    destruct (pack_all_empty_represents tuples indices s Hrun) as [Hr ->].
    pose proof (rep_nodup Hr) as Hnd.
    assert (Hrank : ∀ (i k : nat) t,
      tuples !! i = Some t → first_seen tuples !! k = Some t →
      (rank (first_seen tuples) <$> tuples) !! i = Some (Z.of_nat k + 1)).
    { intros i k t Hi Hk. rewrite list_lookup_fmap, Hi. simpl. f_equal.
      rewrite (rank_lookup _ _ k) by done. lia. }
    assert (Hback : ∀ (i : nat) h,
      (rank (first_seen tuples) <$> tuples) !! i = Some h →
      ∃ (k : nat) t, tuples !! i = Some t ∧ first_seen tuples !! k = Some t ∧
                     h = Z.of_nat k + 1).
    { intros i h Hi. apply list_lookup_fmap_Some_1 in Hi as (t & -> & Hi).
      assert (Hin : t ∈ first_seen tuples).
      { apply elem_of_first_seen. by eapply list_elem_of_lookup_2. }
      apply list_elem_of_lookup_1 in Hin as [k Hk]. exists k, t.
      split; [done|]. split; [done|].
      rewrite (rank_lookup _ _ k) by done. lia. }
    split; [by rewrite length_fmap|]. split; [exact Hrank|].
    split; [|split; [|split]].
    + intros i t Hi Hnew. eapply Hrank; [done|]. by apply first_seen_new.
    + intros i h Hi. apply Hback in Hi as (k & t & _ & Hk & ->).
      apply lookup_lt_Some in Hk. lia.
    + intros h Hh.
      destruct (lookup_lt_is_Some_2 (first_seen tuples) (Z.to_nat (h - 1)))
        as [t Hk]; [lia|].
      assert (Hin : t ∈ tuples).
      { apply elem_of_first_seen. by eapply list_elem_of_lookup_2. }
      apply list_elem_of_lookup_1 in Hin as [i Hi].
      eapply list_elem_of_lookup_2.
      rewrite (Hrank i _ t Hi Hk). f_equal. lia.
    + intros i j t1 t2 h1 h2 Hi Hj Hh1 Hh2.
      apply Hback in Hh1 as (k1 & t1' & Hi' & Hk1 & ->).
      apply Hback in Hh2 as (k2 & t2' & Hj' & Hk2 & ->).
      assert (t1' = t1) as -> by congruence.
      assert (t2' = t2) as -> by congruence.
      split.
      * intros E. assert (k1 = k2) as -> by lia. congruence.
      * intros ->. f_equal. f_equal. by eapply NoDup_lookup.
  - intros tuples Hroom.
    apply (pack_all_returns bits bits_range []); [|done].
    by apply represents_empty.
Qed.

(** C6: idempotence of pack. A call on a tuple that is in the forward index
    returns the reference found there and leaves the map as it is; a call
    that returned, made again on the map it left, returns the same reference
    and leaves that map as it is. *)
Theorem pack_idempotent (s : RecordMap T) (t : T) :
  (∀ h, r2i s !! t = Some h → pack bits s t = Return (h, s)) ∧
  (∀ h s', pack bits s t = Return (h, s') →
           pack bits s' t = Return (h, s')).
Proof.
  split.
  - apply pack_found.
  - intros h s' Hpack. by apply pack_found, (pack_returned_found s).
Qed.

(** C9: null reference. getNull is 0, isNull holds of 0 and of nothing else,
    and it does not hold of a reference returned by pack, be it by a record
    map that can be reached or by the map of empty records. *)
Theorem null_reference :
  getNull = 0 ∧
  (∀ ref, isNull ref = true ↔ ref = 0) ∧
  (∀ (s : RecordMap T) t h s',
     reachable bits s → pack bits s t = Return (h, s') →
     0 < h ∧ isNull h = false) ∧
  (∀ tuple, isNull (EmptyRecord.pack tuple) = false).
Proof.
  split; [done|]. split; [|split].
  - intros ref. unfold isNull. apply Z.eqb_eq.
  - intros s t h s' Hs Hpack.
    destruct (reachable_represents bits bits_range s Hs) as [l Hr].
    destruct (pack_returns_rank l s t h s' Hr Hpack) as (k & _ & _ & ->).
    split; [lia|]. unfold isNull. apply Z.eqb_neq. lia.
  - done.
Qed.

(** C10: cell 0 of the first block. In the map left by a call of pack that
    returned, no tuple has reference 0; every cell assigned in a block is
    the cell of a reference h >= 1 found in the forward index, at block
    h / BLOCK_SIZE and offset h mod BLOCK_SIZE (reference BLOCK_SIZE is at
    offset 0 of the second block); the first block exists and its cell 0
    was never assigned; so unpack of 0 stays within the blocks and returns
    the value initialised tuple. *)
Theorem unpack_null_reads_unused_cell (s : RecordMap T) t h s' :
  reachable bits s → pack bits s t = Return (h, s') →
  (∀ t', r2i s' !! t' ≠ Some 0) ∧
  (∀ (b : nat) blk o t',
     i2r s' !! b = Some blk → blk !! o = Some t' →
     ∃ h', r2i s' !! t' = Some h' ∧ 1 ≤ h' ∧
           Z.of_nat b = h' / BLOCK_SIZE ∧ o = h' mod BLOCK_SIZE) ∧
  (BLOCK_SIZE / BLOCK_SIZE = 1 ∧ BLOCK_SIZE mod BLOCK_SIZE = 0) ∧
  (∃ blk, i2r s' !! 0%nat = Some blk ∧ blk !! 0 = None) ∧
  unpack s' 0 = Some tuple_default.
Proof.
  intros Hs Hpack.
  destruct (reachable_represents bits bits_range s Hs) as [l Hr].
  destruct (pack_returns_rank l s t h s' Hr Hpack) as (k & Hr' & Hk & ->).
  set (l' := observe l t) in *. clearbody l'.
  assert (Hcell : ∀ (b : nat) blk o t',
    i2r s' !! b = Some blk → blk !! o = Some t' →
    ∃ h', r2i s' !! t' = Some h' ∧ 1 ≤ h' ∧
          Z.of_nat b = h' / BLOCK_SIZE ∧ o = h' mod BLOCK_SIZE).
  { intros b blk o t' Hb Ho.
    apply (rep_cells Hr' _ _ _ _ Hb) in Ho as (k' & Hk' & Hrange & Hslot).
    exists (Z.of_nat (S k')). split; [apply (rep_r2i Hr'); eauto|].
    split; [lia|].
    destruct (slot_unique (Z.of_nat b) o (Z.of_nat (S k'))) as [-> ->]; done. }
  assert (Hfirst : ∃ blk, i2r s' !! 0%nat = Some blk).
  { apply lookup_lt_is_Some_2. pose proof (rep_blocks Hr') as Hblocks.
    rewrite decide_False in Hblocks by (by intros ->).
    assert (0 ≤ Z.of_nat (length l') / BLOCK_SIZE).
    { apply Z.div_pos; [lia | rewrite BLOCK_SIZE_eq; lia]. }
    lia. }
  destruct Hfirst as [blk Hblk].
  assert (Hunused : blk !! 0 = None).
  { destruct (blk !! 0) as [t'|] eqn:E; [|done].
    destruct (Hcell _ _ _ _ Hblk E) as (h' & _ & Hh' & Hq & Hm).
    destruct (slot_decompose h') as [Hdec _]. simpl in Hq. lia. }
  split; [|split; [exact Hcell|split; [by rewrite BLOCK_SIZE_eq|split]]].
  - intros t' Ht'. apply (rep_r2i Hr') in Ht' as (k' & _ & Hz). lia.
  - by exists blk.
  - unfold unpack. change (Z.to_nat (to_size_t 0 / BLOCK_SIZE)) with 0%nat.
    rewrite Hblk. unfold block_read.
    change (to_size_t 0 mod BLOCK_SIZE) with 0. by rewrite Hunused.
Qed.

(** C3 as amended: addressing by the reference itself. A call of pack that
    interns a new tuple under reference h assigns the cell at offset
    h mod BLOCK_SIZE of block h / BLOCK_SIZE and no other cell; unpack of h
    reads that same cell; so block b holds exactly the references from
    b * BLOCK_SIZE to (b + 1) * BLOCK_SIZE - 1. *)
Theorem block_addressing (s : RecordMap T) :
  reachable bits s →
  (∀ t h s',
     r2i s !! t = None → pack bits s t = Return (h, s') →
     ∀ (b : nat) o,
       cell s' b o =
       if decide (Z.of_nat b = h / BLOCK_SIZE ∧ o = h mod BLOCK_SIZE)
       then Some t else cell s b o) ∧
  (∀ t h,
     r2i s !! t = Some h →
     cell s (Z.to_nat (h / BLOCK_SIZE)) (h mod BLOCK_SIZE) = Some t ∧
     unpack s h = Some t) ∧
  (∀ h, 0 ≤ h < 2 ^ 64 →
     unpack s h =
     match i2r s !! Z.to_nat (h / BLOCK_SIZE) with
     | None => None
     | Some blk => Some (block_read blk (h mod BLOCK_SIZE))
     end) ∧
  (∀ (b : nat) t h,
     r2i s !! t = Some h →
     (∃ o, cell s b o = Some t) ↔
     Z.of_nat b * BLOCK_SIZE ≤ h ≤ (Z.of_nat b + 1) * BLOCK_SIZE - 1).
Proof.
  intros Hs. destruct (reachable_represents bits bits_range s Hs) as [l Hr].
  pose proof (rep_nodup Hr) as Hnd.
  split; [|split; [|split]].
  - intros t h s' Hnone Hpack b o.
    destruct (pack_cases bits bits_range l s t Hr)
      as [(k & Hk & E)|[(_ & _ & E)|(Hnin & _ & s1 & E & Hr1)]];
      rewrite E in Hpack; [|done|].
    { injection Hpack as <- <-.
      assert (r2i s !! t = Some (Z.of_nat (S k))) by (apply (rep_r2i Hr); eauto).
      congruence. }
    injection Hpack as <- <-.
    destruct (slot_decompose (Z.of_nat (S (length l)))) as [Hdec Hoff].
    case_decide as Hslot.
    + destruct Hslot as [Hb ->].
      apply (cell_represents bits _ _ _ _ _ Hr1).
      exists (length l). rewrite lookup_app_r, Nat.sub_diag by lia.
      split; [done|]. split; [done|]. by rewrite Hb.
    + apply option_eq. intros x.
      rewrite (cell_represents bits _ _ _ _ _ Hr1).
      rewrite (cell_represents bits _ _ _ _ _ Hr).
      split; intros (k & Hk & Ho & Hko); exists k; (split; [|done]).
      * apply lookup_app_Some in Hk as [Hk|[Hge Hk]]; [done|].
        apply list_lookup_singleton_Some in Hk as [Hk0 _].
        exfalso. apply Hslot.
        assert (k = length l) as -> by lia.
        destruct (slot_unique (Z.of_nat b) o (Z.of_nat (S (length l))))
          as [<- <-]; done.
      * by apply lookup_app_l_Some.
  - intros t h Hh. apply (rep_r2i Hr) in Hh as (k & Hk & ->).
    split; [|by eapply unpack_represents].
    destruct (slot_decompose (Z.of_nat (S k))) as [Hdec Hoff].
    apply (cell_represents bits _ _ _ _ _ Hr). exists k.
    split; [done|]. split; [done|].
    rewrite Z2Nat.id; [done|].
    apply Z.div_pos; [lia | rewrite BLOCK_SIZE_eq; lia].
  - intros h Hh. unfold unpack. by rewrite to_size_t_small.
  - intros b t h Hh. apply (rep_r2i Hr) in Hh as (k & Hk & ->). split.
    + intros [o Ho].
      apply (cell_represents bits _ _ _ _ _ Hr)
        in Ho as (k' & Hk' & Ho & Hslot).
      assert (k' = k) as -> by (by eapply NoDup_lookup). lia.
    + intros Hrange. exists (Z.of_nat (S k) - Z.of_nat b * BLOCK_SIZE).
      apply (cell_represents bits _ _ _ _ _ Hr). exists k.
      split; [done|]. lia.
Qed.

(** C2 as amended: capacity exhaustion. On a map that can be reached, pack
    stops at the failed assertion exactly when the tuple is new and the next
    reference is the largest value of the reference domain; the check comes
    after the insertion into the forward index and before anything is done
    to the blocks, so at that moment the forward index holds the new entry,
    tuple to largest value, and the blocks are as they were. pack never
    indexes the blocks out of their bounds. *)
Theorem pack_capacity_exhaustion (s : RecordMap T) (t : T) :
  reachable bits s →
  (∀ s', pack bits s t = AssertionFailed s' ↔
         r2i s !! t = None ∧
         Z.of_nat (size (r2i s)) + 1 = RamDomain_max bits ∧
         s' = mkRecordMap (<[t := RamDomain_max bits]> (r2i s)) (i2r s)) ∧
  (∀ s', pack bits s t = AssertionFailed s' →
         r2i s !! t = None ∧
         r2i s' !! t = Some (RamDomain_max bits) ∧
         size (r2i s') = S (size (r2i s)) ∧
         i2r s' = i2r s) ∧
  pack bits s t ≠ OutOfBounds.
Proof.
  intros Hs. destruct (reachable_represents bits bits_range s Hs) as [l Hr].
  pose proof (rep_size Hr) as Hsz.
  assert (Hiff : ∀ s', pack bits s t = AssertionFailed s' ↔
    r2i s !! t = None ∧
    Z.of_nat (size (r2i s)) + 1 = RamDomain_max bits ∧
    s' = mkRecordMap (<[t := RamDomain_max bits]> (r2i s)) (i2r s)).
  { intros s'. split.
    - intros Hpack.
      destruct (pack_cases bits bits_range l s t Hr)
        as [(k & Hk & E)|[(Hnin & Hfull & E)|(Hnin & _ & s1 & E & Hr1)]];
        rewrite E in Hpack; [done| |done].
      injection Hpack as <-.
      split; [by eapply represents_lookup_None|]. split; [|done].
      by rewrite Hsz.
    - intros (Hnone & Hfull & ->). by apply pack_exhausted. }
  split; [exact Hiff|]. split.
  - intros s' Hpack. apply Hiff in Hpack as (Hnone & Hfull & ->).
    cbn [r2i i2r]. split; [done|]. split; [apply lookup_insert_eq|].
    split; [|done]. by apply map_size_insert_None.
  - destruct (pack_cases bits bits_range l s t Hr)
      as [(k & Hk & E)|[(Hnin & Hfull & E)|(Hnin & _ & s1 & E & Hr1)]];
      by rewrite E.
Qed.
End interning.

(** ** The maps of the examples *)

Lemma packed_spec {T : Type} `{RamTuple T} bits (tuples : list T) :
  1 < bits ≤ 64 →
  Z.of_nat (length (first_seen tuples)) < RamDomain_max bits →
  ∃ indices,
    pack_all bits empty_map tuples = Return (indices, packed bits tuples) ∧
    represents bits (first_seen tuples) (packed bits tuples) ∧
    reachable bits (packed bits tuples).
Proof.
  intros Hb Hroom.
  destruct (pack_all_returns bits Hb [] empty_map tuples)
    as (indices & s & Hrun); [by apply represents_empty|done|].
  exists indices. unfold packed. rewrite Hrun. split; [done|]. split.
  - by destruct (pack_all_empty_represents bits Hb tuples indices s Hrun).
  - eapply pack_all_reachable; [|done]. constructor.
Qed.

Lemma singles_NoDup n : NoDup (singles n).
Proof.
  unfold singles. apply NoDup_fmap_2; [|apply NoDup_seq].
  intros x y. apply Nat2Z.inj.
Qed.

Lemma singles_length n : length (singles n) = n.
Proof. unfold singles. by rewrite length_fmap, length_seq. Qed.

Lemma singles_nonneg n x : x ∈ singles n → 0 ≤ x.
Proof.
  unfold singles. intros (k & -> & _)%list_elem_of_fmap. lia.
Qed.

Lemma bits32 : 1 < 32 ≤ 64.
Proof. lia. Qed.

Lemma RamDomain_max_32 : RamDomain_max 32 = 2147483647.
Proof. reflexivity. Qed.

Lemma full_map_represents :
  represents 32 (singles (Z.to_nat 2147483646)) full_map ∧
  reachable 32 full_map.
Proof.
  destruct (packed_spec 32 (singles (Z.to_nat 2147483646)) bits32)
    as (indices & _ & Hr & Hreach).
  - rewrite first_seen_NoDup by apply singles_NoDup.
    rewrite singles_length, RamDomain_max_32. lia.
  - rewrite first_seen_NoDup in Hr by apply singles_NoDup. done.
Qed.

Lemma full_map_reachable : reachable 32 full_map.
Proof. apply full_map_represents. Qed.

Lemma full_map_size : Z.of_nat (size (r2i full_map)) + 1 = RamDomain_max 32.
Proof.
  destruct full_map_represents as [Hr _].
  rewrite (rep_size Hr), singles_length, RamDomain_max_32. lia.
Qed.

Lemma full_map_new : r2i full_map !! (-1) = None.
Proof.
  destruct full_map_represents as [Hr _].
  apply (represents_lookup_None 32 _ _ _ Hr).
  intros Hin%singles_nonneg. lia.
Qed.

(** ** Empty records *)

(** C8: the specialisation for empty records. pack returns 1 for every call,
    unpack returns the one empty tuple whatever reference it is given, and
    getRecordReferences is the mapping of the single entry 1 to the empty
    sequence of fields; none of them takes or leaves a state. *)
Theorem empty_record_specialisation :
  (∀ tuple, EmptyRecord.pack tuple = 1) ∧
  (∀ index, EmptyRecord.unpack index = EmptyRecord.empty) ∧
  (∀ tuple : EmptyRecord.Tuple0, tuple = EmptyRecord.empty) ∧
  EmptyRecord.getRecordReferences !! 1 = Some [] ∧
  (∀ ref, ref ≠ 1 → EmptyRecord.getRecordReferences !! ref = None) ∧
  map_to_list EmptyRecord.getRecordReferences = [(1, [])].
Proof.
  split; [done|]. split; [done|]. split; [by intros []|].
  split; [done|]. split.
  - intros ref Href. unfold EmptyRecord.getRecordReferences.
    by rewrite lookup_singleton_ne.
  - apply map_to_list_singleton.
Qed.

(** ** The record table *)

Lemma getRecordTable_eq {RecordTable : Type}
    (addRecord : Z → list Z → RecordTable → RecordTable)
    (st : GeneralRecordMap.statics RecordTable) :
  GeneralRecordMap.getRecordTable addRecord st =
  let table :=
    GeneralRecordMap.add_all addRecord (GeneralRecordMap.createdMaps st)
                             (GeneralRecordMap.recordTable st) in
  (table, {| GeneralRecordMap.createdMaps := GeneralRecordMap.createdMaps st;
             GeneralRecordMap.recordTable := table |}).
Proof. reflexivity. Qed.

(** C1: the record table is not built once. Every call of getRecordTable
    walks the registry and adds the record references of every registered map
    to the table of the previous calls, whatever the table type and its
    addRecord are. With a table that keeps every addRecord, two calls in a row
    on the map that holds (7,8) add its record twice. With the table as a
    mapping keyed by reference, a first call made before anything is packed
    returns the empty table, and a second call made after (7,8) was packed
    returns a table with the entry of reference 1. *)
Theorem getRecordTable_rebuilds_on_every_call :
  (∀ (RecordTable : Type) addRecord
     (st : GeneralRecordMap.statics RecordTable),
     let first := GeneralRecordMap.getRecordTable addRecord st in
     let second := GeneralRecordMap.getRecordTable addRecord first.2 in
     let maps := GeneralRecordMap.getMaps st in
     first.1 =
       GeneralRecordMap.add_all addRecord maps
                                (GeneralRecordMap.recordTable st) ∧
     second.1 = GeneralRecordMap.add_all addRecord maps first.1) ∧
  (let first :=
     GeneralRecordMap.getRecordTable log_record
                                     (one_map (packed 32 [(7, 8)]) []) in
   let second := GeneralRecordMap.getRecordTable log_record first.2 in
   first.1 = [(1, [7; 8])] ∧ second.1 = [(1, [7; 8]); (1, [7; 8])]) ∧
  (let first :=
     GeneralRecordMap.getRecordTable RecordTable.addRecord
                                     (one_map empty_map ∅) in
   let s := packed 32 [(7, 8)] in
   let second :=
     GeneralRecordMap.getRecordTable
       RecordTable.addRecord
       (GeneralRecordMap.mutate first.2 0 (as_general s)) in
   pack 32 empty_map (7, 8) = Return (1, s) ∧
   first.1 = ∅ ∧ second.1 = {[ 1 := [7; 8] ]} ∧ second.1 ≠ first.1).
Proof.
  split; [|split].
  - intros RecordTable addRecord st. simpl. done.
  - vm_compute. done.
  - vm_compute. split; [done|]. split; [done|]. split; [done|]. discriminate.
Qed.

(** ** Where the specification and the code differ *)

Lemma full_map_pack :
  pack 32 full_map (-1) =
  AssertionFailed
    (mkRecordMap (<[-1 := 2147483647]> (r2i full_map)) (i2r full_map)).
Proof.
  pose proof (pack_exhausted 32 bits32 full_map (-1)
                             full_map_new full_map_size) as Hpack.
  rewrite RamDomain_max_32 in Hpack. exact Hpack.
Qed.

(** C2, as stated, fails: with references of 32 bits, on the map that holds
    the 2147483646 tuples (0), (1), ..., the call of pack on the new tuple
    (-1) stops at the assertion, and the forward index of that moment holds
    the entry of (-1), which the forward index before the call did not. *)
Lemma assertion_fires_after_insertion :
  reachable 32 full_map ∧
  r2i full_map !! (-1) = None ∧
  pack 32 full_map (-1) =
    AssertionFailed
      (mkRecordMap (<[-1 := 2147483647]> (r2i full_map)) (i2r full_map)) ∧
  <[-1 := 2147483647]> (r2i full_map) !! (-1) = Some 2147483647 ∧
  <[-1 := 2147483647]> (r2i full_map) ≠ r2i full_map.
Proof.
  split; [exact full_map_reachable|]. split; [exact full_map_new|].
  split; [exact full_map_pack|].
  split; [apply lookup_insert_eq|].
  intros E. pose proof full_map_new as Hnew.
  rewrite <- E, lookup_insert_eq in Hnew. discriminate Hnew.
Qed.

Lemma block_size_map_represents :
  represents 32 (singles (Z.to_nat 1048576))
             (packed 32 (singles (Z.to_nat 1048576))).
Proof.
  destruct (packed_spec 32 (singles (Z.to_nat 1048576)) bits32)
    as (indices & _ & Hr & _).
  - rewrite first_seen_NoDup by apply singles_NoDup.
    rewrite singles_length, RamDomain_max_32. lia.
  - rewrite first_seen_NoDup in Hr by apply singles_NoDup. done.
Qed.

Lemma singles_lookup (n k : nat) :
  (k < n)%nat → singles n !! k = Some (Z.of_nat k).
Proof.
  intros Hk. unfold singles. rewrite list_lookup_fmap.
  rewrite lookup_seq_lt by done. done.
Qed.

(** C3, as stated, fails. After (7,8) is packed into a new map, reference 1
    is not at offset (1 - 1) mod BLOCK_SIZE = 0 of block 0, which is
    unassigned, but at offset 1, where unpack reads it. After BLOCK_SIZE
    tuples are packed, the tuple of reference BLOCK_SIZE is at offset 0 of
    block 1, not in block 0. *)
Lemma reference_one_is_at_offset_one :
  (let s := packed 32 [(7, 8)] in
   pack 32 empty_map (7, 8) = Return (1, s) ∧
   cell s (Z.to_nat ((1 - 1) / BLOCK_SIZE)) ((1 - 1) mod BLOCK_SIZE) = None ∧
   cell s (Z.to_nat (1 / BLOCK_SIZE)) (1 mod BLOCK_SIZE) = Some (7, 8) ∧
   unpack s 1 = Some (7, 8)) ∧
  (let s := packed 32 (singles (Z.to_nat BLOCK_SIZE)) in
   r2i s !! (BLOCK_SIZE - 1) = Some BLOCK_SIZE ∧
   cell s 1 0 = Some (BLOCK_SIZE - 1) ∧
   ∀ o, cell s 0 o ≠ Some (BLOCK_SIZE - 1)).
Proof.
  split; [vm_compute; done|].
  rewrite BLOCK_SIZE_eq. cbv zeta.
  pose proof block_size_map_represents as Hr.
  assert (Hk : singles (Z.to_nat 1048576) !! Z.to_nat 1048575
               = Some (1048576 - 1)).
  { rewrite singles_lookup by lia. rewrite Z2Nat.id by lia. reflexivity. }
  split; [|split].
  - apply (rep_r2i Hr). exists (Z.to_nat 1048575). split; [exact Hk|]. lia.
  - apply (cell_represents 32 _ _ _ _ _ Hr). exists (Z.to_nat 1048575).
    split; [exact Hk|]. rewrite BLOCK_SIZE_eq. lia.
  - intros o Ho.
    apply (cell_represents 32 _ _ _ _ _ Hr) in Ho as (k & Hk' & Ho & Hslot).
    assert (k = Z.to_nat 1048575) as ->.
    { eapply NoDup_lookup; [apply singles_NoDup|exact Hk'|exact Hk]. }
    rewrite BLOCK_SIZE_eq in *. lia.
Qed.

(** ** Instances *)

Lemma boundary_tuples_length :
  Z.of_nat (length boundary_tuples) = BLOCK_SIZE + 1.
Proof.
  unfold boundary_tuples. rewrite singles_length, BLOCK_SIZE_eq. lia.
Qed.

Lemma boundary_room : BLOCK_SIZE + 1 < RamDomain_max 32.
Proof. rewrite BLOCK_SIZE_eq, RamDomain_max_32. lia. Qed.

(** Round trip on (1,2,3) packed into a new map, and across the boundary of
    the first block for the tuples (0), ..., (BLOCK_SIZE). *)
Lemma unpack_pack_round_trip_witness :
  (reachable 32 (empty_map : RecordMap (Z * Z * Z)) ∧
   pack 32 empty_map (1, 2, 3) = Return (1, packed 32 [(1, 2, 3)]) ∧
   unpack (packed 32 [(1, 2, 3)]) 1 = Some (1, 2, 3)) ∧
  (NoDup boundary_tuples ∧
   Z.of_nat (length boundary_tuples) = BLOCK_SIZE + 1 ∧
   BLOCK_SIZE + 1 < RamDomain_max 32 ∧
   ∃ indices s t1 t2,
     pack_all 32 empty_map boundary_tuples = Return (indices, s) ∧
     boundary_tuples !! 0%nat = Some t1 ∧
     boundary_tuples !! Z.to_nat BLOCK_SIZE = Some t2 ∧
     indices !! 0%nat = Some 1 ∧
     indices !! Z.to_nat BLOCK_SIZE = Some (BLOCK_SIZE + 1) ∧
     unpack s 1 = Some t1 ∧ unpack s (BLOCK_SIZE + 1) = Some t2 ∧
     length (i2r s) = 2%nat).
Proof.
  split.
  - assert (Hreach : reachable 32 (empty_map : RecordMap (Z * Z * Z)))
      by constructor.
    assert (Hpack : pack 32 empty_map (1, 2, 3)
                    = Return (1, packed 32 [(1, 2, 3)]))
      by (vm_compute; reflexivity).
    split; [exact Hreach|]. split; [exact Hpack|].
    exact (proj1 (unpack_pack_round_trip 32 bits32) _ _ _ _ Hreach Hpack).
  - split; [apply singles_NoDup|]. split; [exact boundary_tuples_length|].
    split; [exact boundary_room|].
    exact (proj2 (unpack_pack_round_trip 32 bits32) boundary_tuples
                 (singles_NoDup _) boundary_tuples_length boundary_room).
Defined.

(** Scenario A: (1,2,3), (1,2,3), (4,5,6) packed into a new map. *)
Lemma handles_dense_ordered_injective_witness :
  let tuples := [(1, 2, 3); (1, 2, 3); (4, 5, 6)] in
  pack_all 32 empty_map tuples = Return ([1; 1; 2], packed 32 tuples) ∧
  Z.of_nat (length (first_seen tuples)) < RamDomain_max 32 ∧
  ([1; 1; 2] !! 2%nat = Some (Z.of_nat 1 + 1) ∧
   (∀ h, 1 ≤ h ≤ Z.of_nat (length (first_seen tuples)) → h ∈ [1; 1; 2])) ∧
  ∃ indices s, pack_all 32 empty_map tuples = Return (indices, s).
Proof.
  cbv zeta.
  assert (Hrun : pack_all 32 empty_map [(1, 2, 3); (1, 2, 3); (4, 5, 6)]
                 = Return ([1; 1; 2],
                           packed 32 [(1, 2, 3); (1, 2, 3); (4, 5, 6)]))
    by (vm_compute; reflexivity).
  assert (Hroom : Z.of_nat (length (first_seen
                    [(1, 2, 3); (1, 2, 3); (4, 5, 6)])) < RamDomain_max 32)
    by (vm_compute; reflexivity).
  split; [exact Hrun|]. split; [exact Hroom|].
  destruct (handles_dense_ordered_injective (T := Z * Z * Z) 32 bits32)
    as [Hall Htotal].
  split; [|exact (Htotal _ Hroom)].
  destruct (Hall _ _ _ Hrun) as (_ & Hrank & _ & _ & Hdense & _).
  split; [|exact Hdense].
  apply (Hrank 2%nat 1%nat (4, 5, 6)); reflexivity.
Defined.

(** pack twice on (1,2,3), from a new map. *)
Lemma pack_idempotent_witness :
  let s := packed 32 [(1, 2, 3)] in
  r2i s !! (1, 2, 3) = Some 1 ∧
  pack 32 empty_map (1, 2, 3) = Return (1, s) ∧
  pack 32 s (1, 2, 3) = Return (1, s).
Proof.
  cbv zeta.
  assert (Hpack : pack 32 empty_map (1, 2, 3)
                  = Return (1, packed 32 [(1, 2, 3)]))
    by (vm_compute; reflexivity).
  split; [vm_compute; reflexivity|]. split; [exact Hpack|].
  exact (proj2 (pack_idempotent 32 empty_map (1, 2, 3)) _ _ Hpack).
Defined.

(** The reference of (7,8) packed into a new map is not null. *)
Lemma null_reference_witness :
  reachable 32 (empty_map : RecordMap (Z * Z)) ∧
  pack 32 empty_map (7, 8) = Return (1, packed 32 [(7, 8)]) ∧
  0 < 1 ∧ isNull 1 = false.
Proof.
  assert (Hreach : reachable 32 (empty_map : RecordMap (Z * Z)))
    by constructor.
  assert (Hpack : pack 32 empty_map (7, 8) = Return (1, packed 32 [(7, 8)]))
    by (vm_compute; reflexivity).
  split; [exact Hreach|]. split; [exact Hpack|].
  destruct (null_reference (T := Z * Z) 32 bits32) as (_ & _ & Hpos & _).
  exact (Hpos _ _ _ _ Hreach Hpack).
Defined.

(** unpack of 0 after (7,8) was packed into a new map. *)
Lemma unpack_null_reads_unused_cell_witness :
  reachable 32 (empty_map : RecordMap (Z * Z)) ∧
  pack 32 empty_map (7, 8) = Return (1, packed 32 [(7, 8)]) ∧
  unpack (packed 32 [(7, 8)]) 0 = Some (0, 0).
Proof.
  assert (Hreach : reachable 32 (empty_map : RecordMap (Z * Z)))
    by constructor.
  assert (Hpack : pack 32 empty_map (7, 8) = Return (1, packed 32 [(7, 8)]))
    by (vm_compute; reflexivity).
  split; [exact Hreach|]. split; [exact Hpack|].
  destruct (unpack_null_reads_unused_cell 32 bits32 _ _ _ _ Hreach Hpack)
    as (_ & _ & _ & _ & Hnull).
  exact Hnull.
Defined.

(** (4,5) packed into the map that holds (7,8). *)
Lemma block_addressing_witness :
  let s := packed 32 [(7, 8)] in
  let s' := packed 32 [(7, 8); (4, 5)] in
  reachable 32 s ∧
  r2i s !! (4, 5) = None ∧
  pack 32 s (4, 5) = Return (2, s') ∧
  r2i s !! (7, 8) = Some 1 ∧
  (∀ (b : nat) o,
     cell s' b o =
     if decide (Z.of_nat b = 2 / BLOCK_SIZE ∧ o = 2 mod BLOCK_SIZE)
     then Some (4, 5) else cell s b o) ∧
  (cell s (Z.to_nat (1 / BLOCK_SIZE)) (1 mod BLOCK_SIZE) = Some (7, 8) ∧
   unpack s 1 = Some (7, 8)).
Proof.
  cbv zeta.
  assert (Hreach : reachable 32 (packed 32 [(7, 8)])).
  { apply (pack_all_reachable 32 empty_map [(7, 8)] [1]);
      [constructor | vm_compute; reflexivity]. }
  assert (Hnew : r2i (packed 32 [(7, 8)]) !! (4, 5) = None)
    by (vm_compute; reflexivity).
  assert (Hpack : pack 32 (packed 32 [(7, 8)]) (4, 5)
                  = Return (2, packed 32 [(7, 8); (4, 5)]))
    by (vm_compute; reflexivity).
  assert (Hold : r2i (packed 32 [(7, 8)]) !! (7, 8) = Some 1)
    by (vm_compute; reflexivity).
  split; [exact Hreach|]. split; [exact Hnew|]. split; [exact Hpack|].
  split; [exact Hold|].
  destruct (block_addressing 32 bits32 _ Hreach) as (Hwrite & Hread & _ & _).
  split; [exact (Hwrite _ _ _ Hnew Hpack)|exact (Hread _ _ Hold)].
Defined.

(** pack of the new tuple (-1) on the full map of references of 32 bits. *)
Lemma pack_capacity_exhaustion_witness :
  reachable 32 full_map ∧
  pack 32 full_map (-1) =
    AssertionFailed
      (mkRecordMap (<[-1 := 2147483647]> (r2i full_map)) (i2r full_map)) ∧
  (r2i full_map !! (-1) = None ∧
   r2i (mkRecordMap (<[-1 := 2147483647]> (r2i full_map)) (i2r full_map))
     !! (-1) = Some (RamDomain_max 32) ∧
   size (r2i (mkRecordMap (<[-1 := 2147483647]> (r2i full_map))
                          (i2r full_map)))
     = S (size (r2i full_map)) ∧
   i2r (mkRecordMap (<[-1 := 2147483647]> (r2i full_map)) (i2r full_map))
     = i2r full_map).
Proof.
  split; [exact full_map_reachable|]. split; [exact full_map_pack|].
  destruct (pack_capacity_exhaustion 32 bits32 full_map (-1)
              full_map_reachable) as (_ & Hstate & _).
  exact (Hstate _ full_map_pack).
Defined.

(** * Further properties of the record map *)

Section record_references.
Context {T : Type} `{RamTuple T}.

(** What [getRecordReferences] holds, for a forward index in which no two
    tuples share a reference. *)
Lemma getRecordReferences_fold (m : gmap T Z) :
  (∀ t1 t2 h, m !! t1 = Some h → m !! t2 = Some h → t1 = t2) →
  (∀ h v,
     getRecordReferences (mkRecordMap m []) !! h = Some v ↔
     ∃ t, m !! t = Some h ∧ v = toVector t) ∧
  size (getRecordReferences (mkRecordMap m [])) = size m.
Proof.
  unfold getRecordReferences. cbn [r2i].
  apply (map_fold_weak_ind
    (λ (r : gmap Z (list Z)) (m : gmap T Z),
       (∀ t1 t2 h, m !! t1 = Some h → m !! t2 = Some h → t1 = t2) →
       (∀ h v, r !! h = Some v ↔ ∃ t, m !! t = Some h ∧ v = toVector t) ∧
       size r = size m)).
  - intros _. split; [|by rewrite !map_size_empty].
    intros h v. rewrite lookup_empty. split; [done|].
    intros (t & Ht & _). by rewrite lookup_empty in Ht.
  - clear m. intros t x m r Hnone IH Hinj.
    assert (Hinj' : ∀ t1 t2 h,
      m !! t1 = Some h → m !! t2 = Some h → t1 = t2).
    { intros t1 t2 h H1 H2. apply (Hinj t1 t2 h).
      - rewrite lookup_insert_ne; [done|]. intros ->. congruence.
      - rewrite lookup_insert_ne; [done|]. intros ->. congruence. }
    assert (Hfresh : ∀ t', m !! t' ≠ Some x).
    { intros t' Ht'. assert (t = t'); [|congruence].
      apply (Hinj t t' x); [apply lookup_insert_eq|].
      rewrite lookup_insert_ne; [done|]. intros ->. congruence. }
    destruct (IH Hinj') as [Hlook Hsize]. split.
    + intros h v. rewrite lookup_insert. case_decide as Eh.
      * subst h. split.
        -- intros [= <-]. exists t. by rewrite lookup_insert_eq.
        -- intros (t' & Ht' & ->). f_equal. f_equal.
           rewrite lookup_insert in Ht'. case_decide; [done|].
           by destruct (Hfresh t').
      * rewrite Hlook. split; intros (t' & Ht' & ->); exists t'.
        -- rewrite lookup_insert_ne; [done|]. intros ->. congruence.
        -- rewrite lookup_insert in Ht'. case_decide; [congruence|done].
    + rewrite !map_size_insert_None; [by rewrite Hsize|done|].
      destruct (r !! x) as [v|] eqn:E; [|done].
      apply Hlook in E as (t' & Ht' & _). by destruct (Hfresh t').
Qed.

Lemma getRecordReferences_r2i (s : RecordMap T) :
  getRecordReferences s = getRecordReferences (mkRecordMap (r2i s) []).
Proof. reflexivity. Qed.
End record_references.

Section further.
Context {T : Type} `{RamTuple T}.
Variable bits : Z.
Hypothesis bits_range : 1 < bits ≤ 64.

Lemma represents_inj (l : list T) s t1 t2 h :
  represents bits l s →
  r2i s !! t1 = Some h → r2i s !! t2 = Some h → t1 = t2.
Proof.
  intros Hr Ha Hb.
  apply (rep_r2i Hr) in Ha as (k1 & Hk1 & E1).
  apply (rep_r2i Hr) in Hb as (k2 & Hk2 & E2).
  assert (k1 = k2) as -> by lia. congruence.
Qed.

(** The reference of a tuple lies between 1 and the number of tuples. *)
Lemma represents_handle_range (l : list T) s t h :
  represents bits l s → r2i s !! t = Some h →
  1 ≤ h ≤ Z.of_nat (size (r2i s)).
Proof.
  intros Hr Ht. rewrite (rep_size Hr).
  apply (rep_r2i Hr) in Ht as (k & Hk & ->).
  apply lookup_lt_Some in Hk. lia.
Qed.

Lemma represents_handle_assigned (l : list T) s h :
  represents bits l s → 1 ≤ h ≤ Z.of_nat (size (r2i s)) →
  ∃ t, r2i s !! t = Some h ∧ unpack s h = Some t.
Proof.
  intros Hr Hh. rewrite (rep_size Hr) in Hh.
  destruct (lookup_lt_is_Some_2 l (Z.to_nat (h - 1))) as [t Hk]; [lia|].
  exists t. replace h with (Z.of_nat (S (Z.to_nat (h - 1)))) by lia. split.
  - apply (rep_r2i Hr). eauto.
  - by eapply unpack_represents.
Qed.

(** The invariant fixes the map. *)
Lemma represents_unique (l : list T) s1 s2 :
  represents bits l s1 → represents bits l s2 → s1 = s2.
Proof.
  intros Hr1 Hr2. destruct s1 as [m1 b1], s2 as [m2 b2]. f_equal.
  - apply map_eq. intros t. apply option_eq. intros h.
    rewrite (rep_r2i Hr1 t h), (rep_r2i Hr2 t h). done.
  - pose proof (rep_blocks Hr1) as Hl1. pose proof (rep_blocks Hr2) as Hl2.
    cbn [i2r] in *.
    apply list_eq. intros b.
    destruct (b1 !! b) as [blk1|] eqn:E1, (b2 !! b) as [blk2|] eqn:E2.
    + f_equal. apply map_eq. intros o. apply option_eq. intros t.
      rewrite (rep_cells Hr1 b blk1 o t E1), (rep_cells Hr2 b blk2 o t E2).
      done.
    + apply lookup_lt_Some in E1. apply lookup_ge_None_1 in E2. lia.
    + apply lookup_ge_None_1 in E1. apply lookup_lt_Some in E2. lia.
    + done.
Qed.

(** X1: getRecordReferences is the forward index turned around. On a map
    that can be reached it maps reference h to the fields of the tuple whose
    reference is h; its keys are the references 1 to r2i.size(), each once. *)
Theorem getRecordReferences_inverts_forward_index (s : RecordMap T) :
  reachable bits s →
  (∀ h v,
     getRecordReferences s !! h = Some v ↔
     ∃ t, r2i s !! t = Some h ∧ v = toVector t) ∧
  (∀ h, is_Some (getRecordReferences s !! h) ↔
        1 ≤ h ≤ Z.of_nat (size (r2i s))) ∧
  size (getRecordReferences s) = size (r2i s).
Proof.
  intros Hs. destruct (reachable_represents bits bits_range s Hs) as [l Hr].
  rewrite getRecordReferences_r2i.
  destruct (getRecordReferences_fold (r2i s)) as [Hlook Hsize].
  { intros t1 t2 h. by apply (represents_inj l s). }
  split; [exact Hlook|]. split; [|exact Hsize].
  intros h. split.
  - intros [v (t & Ht & _)%Hlook]. by eapply represents_handle_range.
  - intros Hh. destruct (represents_handle_assigned l s h Hr Hh) as (t & Ht & _).
    exists (toVector t). apply Hlook. eauto.
Qed.

(** X2: getRecordReferences and unpack agree. On a map that can be reached,
    every entry of getRecordReferences, reference h to fields v, is the
    entry of a tuple that unpack returns for h and whose fields are v. *)
Theorem getRecordReferences_agrees_with_unpack (s : RecordMap T) h v :
  reachable bits s →
  getRecordReferences s !! h = Some v →
  ∃ t, unpack s h = Some t ∧ toVector t = v.
Proof.
  intros Hs Hv. destruct (reachable_represents bits bits_range s Hs) as [l Hr].
  rewrite getRecordReferences_r2i in Hv.
  destruct (getRecordReferences_fold (r2i s)) as [Hlook _].
  { intros t1 t2 h'. by apply (represents_inj l s). }
  apply Hlook in Hv as (t & Ht & ->). exists t. split; [|done].
  destruct (proj1 (rep_r2i Hr t h) Ht) as (k & Hk & Eh). rewrite Eh.
  by eapply unpack_represents.
Qed.

Lemma pack_all_not_out_of_bounds (l : list T) s tuples :
  represents bits l s → pack_all bits s tuples ≠ OutOfBounds.
Proof.
  revert l s. induction tuples as [|t tuples IH]; intros l s Hr; simpl; [done|].
  destruct (pack_cases bits bits_range l s t Hr)
    as [(k & _ & E)|[(_ & _ & E)|(_ & _ & s1 & E & Hr1)]]; rewrite E; [|done|].
  - specialize (IH l s Hr). by destruct (pack_all bits s tuples) as [[??]| |].
  - specialize (IH _ s1 Hr1). by destruct (pack_all bits s1 tuples) as [[??]| |].
Qed.

(** X3: stability of references. Calls of pack that return never take back
    or move what earlier calls did: every tuple keeps its reference, unpack
    of that reference still returns the tuple, every assigned cell keeps its
    tuple, and neither the number of blocks nor that of tuples decreases. *)
Theorem pack_all_keeps_references (s : RecordMap T) tuples indices s' :
  reachable bits s →
  pack_all bits s tuples = Return (indices, s') →
  (∀ t h, r2i s !! t = Some h →
          r2i s' !! t = Some h ∧ unpack s' h = Some t) ∧
  (∀ (b : nat) o x, cell s b o = Some x → cell s' b o = Some x) ∧
  (length (i2r s) ≤ length (i2r s'))%nat ∧
  (size (r2i s) ≤ size (r2i s'))%nat.
Proof.
  intros Hs Hrun. destruct (reachable_represents bits bits_range s Hs) as [l Hr].
  destruct (pack_all_represents bits bits_range l s tuples indices s' Hr Hrun)
    as [Hr' _].
  pose proof (foldl_observe_prefix l tuples) as Hpre.
  set (l' := foldl observe l tuples) in *. clearbody l'.
  pose proof (prefix_length _ _ Hpre) as Hlen.
  split; [|split; [|split]].
  - intros t h Ht. destruct (proj1 (rep_r2i Hr t h) Ht) as (k & Hk & ->).
    assert (Hk' : l' !! k = Some t) by (by eapply prefix_lookup_Some).
    split; [apply (rep_r2i Hr'); eauto|by eapply unpack_represents].
  - intros b o x Hx.
    apply (cell_represents bits _ _ _ _ _ Hr) in Hx as (k & Hk & Ho & Hslot).
    apply (cell_represents bits _ _ _ _ _ Hr'). exists k.
    split; [by eapply prefix_lookup_Some|done].
  - pose proof (rep_blocks Hr) as Hb. pose proof (rep_blocks Hr') as Hb'.
    destruct (decide (l = [])) as [->|Hne]; [lia|].
    rewrite decide_False in Hb'.
    + assert (Z.of_nat (length l) / BLOCK_SIZE
              ≤ Z.of_nat (length l') / BLOCK_SIZE).
      { apply Z.div_le_mono; [rewrite BLOCK_SIZE_eq|]; lia. }
      lia.
    + intros ->. destruct l; [done|]. simpl in Hlen. lia.
  - by rewrite (rep_size Hr), (rep_size Hr').
Qed.

(** X4: unpack on every reference. On a map that can be reached, unpack of
    a reference from 1 to r2i.size() returns the tuple interned under it;
    unpack of a negative reference, or of one whose block is not allocated
    (every reference on a new map), indexes the vector of blocks out of its
    bounds; unpack of any other reference, 0 or one beyond r2i.size() in an
    allocated block, returns the value initialised tuple. *)
Theorem unpack_every_reference (s : RecordMap T) (h : Z) :
  reachable bits s → - 2 ^ 63 ≤ h < 2 ^ 63 →
  (1 ≤ h ≤ Z.of_nat (size (r2i s)) →
   ∃ t, r2i s !! t = Some h ∧ unpack s h = Some t) ∧
  (h < 0 → unpack s h = None) ∧
  (0 ≤ h → Z.of_nat (length (i2r s)) ≤ h / BLOCK_SIZE → unpack s h = None) ∧
  (h = 0 ∨ Z.of_nat (size (r2i s)) < h →
   h / BLOCK_SIZE < Z.of_nat (length (i2r s)) →
   unpack s h = Some tuple_default).
Proof.
  intros Hs Hh. destruct (reachable_represents bits bits_range s Hs) as [l Hr].
  pose proof (RamDomain_max_lt bits bits_range) as Hmax.
  pose proof (rep_room Hr) as Hroom. pose proof (rep_size Hr) as Hsz.
  pose proof (rep_blocks Hr) as Hblocks.
  assert (Hcount : Z.of_nat (length (i2r s)) ≤ 2 ^ 43).
  { destruct (decide (l = [])); [lia|].
    assert (Z.of_nat (length l) / BLOCK_SIZE ≤ (2 ^ 63 - 1) / BLOCK_SIZE).
    { apply Z.div_le_mono; [rewrite BLOCK_SIZE_eq|]; lia. }
    change ((2 ^ 63 - 1) / BLOCK_SIZE) with (2 ^ 43 - 1) in *. lia. }
  split; [|split; [|split]].
  - by apply (represents_handle_assigned l).
  - intros Hneg. unfold unpack.
    assert (to_size_t h = h + 2 ^ 64) as ->.
    { unfold to_size_t, size_t_bits. symmetry.
      apply (Z.mod_unique _ _ (-1)); lia. }
    assert (2 ^ 43 ≤ (h + 2 ^ 64) / BLOCK_SIZE).
    { change (2 ^ 43) with (2 ^ 63 / BLOCK_SIZE).
      apply Z.div_le_mono; [rewrite BLOCK_SIZE_eq|]; lia. }
    rewrite lookup_ge_None_2 by lia. done.
  - intros Hpos Hout. unfold unpack. rewrite to_size_t_small by lia.
    rewrite lookup_ge_None_2 by lia. done.
  - intros Hfree Hin. unfold unpack. rewrite to_size_t_small by lia.
    assert (Hb0 : 0 ≤ h / BLOCK_SIZE).
    { apply Z.div_pos; [lia | rewrite BLOCK_SIZE_eq; lia]. }
    destruct (lookup_lt_is_Some_2 (i2r s) (Z.to_nat (h / BLOCK_SIZE)))
      as [blk Hblk]; [lia|].
    rewrite Hblk. f_equal. unfold block_read.
    destruct (blk !! (h mod BLOCK_SIZE)) as [x|] eqn:Ex; [|done].
    apply (rep_cells Hr _ _ _ _ Hblk) in Ex as (k & Hk & _ & Hslot).
    apply lookup_lt_Some in Hk. rewrite Z2Nat.id in Hslot by done.
    destruct (slot_decompose h) as [Hdec _]. lia.
Qed.

(** X5: blocks are allocated when needed and not before. A map that can be
    reached has no block while it is empty and r2i.size() / BLOCK_SIZE + 1
    blocks afterwards, so every reference handed out lies in an allocated
    block and the last block holds a reference or is the first block; a call
    of pack that returns appends one block when it interns a new tuple under
    reference 1 or under a multiple of BLOCK_SIZE, and none otherwise. *)
Theorem blocks_allocated_on_demand (s : RecordMap T) t h s' :
  reachable bits s → pack bits s t = Return (h, s') →
  Z.of_nat (length (i2r s)) =
    (if decide (size (r2i s) = 0%nat) then 0
     else Z.of_nat (size (r2i s)) / BLOCK_SIZE + 1) ∧
  Z.of_nat (length (i2r s')) = Z.of_nat (size (r2i s')) / BLOCK_SIZE + 1 ∧
  (Z.of_nat (length (i2r s')) - 1) * BLOCK_SIZE ≤ Z.of_nat (size (r2i s'))
    < Z.of_nat (length (i2r s')) * BLOCK_SIZE ∧
  Z.of_nat (length (i2r s')) =
    Z.of_nat (length (i2r s)) +
    (if decide (r2i s !! t = None ∧ (h = 1 ∨ h mod BLOCK_SIZE = 0))
     then 1 else 0).
Proof.
  intros Hs Hpack. destruct (reachable_represents bits bits_range s Hs) as [l Hr].
  assert (Hcount : ∀ (l0 : list T) s0, represents bits l0 s0 →
    Z.of_nat (length (i2r s0)) =
    (if decide (size (r2i s0) = 0%nat) then 0
     else Z.of_nat (size (r2i s0)) / BLOCK_SIZE + 1)).
  { intros l0 s0 Hr0. rewrite (rep_blocks Hr0), (rep_size Hr0).
    destruct (decide (l0 = [])) as [->|Hne]; [by rewrite decide_True|].
    rewrite decide_False; [done|]. by intros E%nil_length_inv. }
  pose proof (Hcount l s Hr) as Hn.
  destruct (pack_cases bits bits_range l s t Hr)
    as [(k & Hk & E)|[(_ & _ & E)|(Hnin & _ & s1 & E & Hr1)]];
    rewrite E in Hpack; [|done|]; injection Hpack as <- <-.
  - assert (Hfound : r2i s !! t = Some (Z.of_nat (S k)))
      by (apply (rep_r2i Hr); eauto).
    assert (size (r2i s) ≠ 0%nat).
    { rewrite (rep_size Hr). apply lookup_lt_Some in Hk. lia. }
    rewrite decide_False in Hn by done.
    split; [by rewrite decide_False by done|]. split; [done|]. split.
    + destruct (slot_decompose (Z.of_nat (size (r2i s)))) as [Hdec Hoff]. nia.
    + rewrite decide_False; [lia|]. intros [Hnone _]. congruence.
  - pose proof (Hcount _ s1 Hr1) as Hn1.
    pose proof (represents_lookup_None bits _ _ _ Hr Hnin) as Hnone.
    assert (Hsz1 : size (r2i s1) = S (size (r2i s))).
    { rewrite (rep_size Hr1), (rep_size Hr), length_app. simpl. lia. }
    rewrite decide_False in Hn1 by lia.
    split; [exact Hn|]. split; [exact Hn1|]. split.
    + destruct (slot_decompose (Z.of_nat (size (r2i s1)))) as [Hdec Hoff]. nia.
    + rewrite Hsz1 in Hn1. rewrite <- (rep_size Hr).
      rewrite BLOCK_SIZE_eq in *.
      destruct (decide (size (r2i s) = 0%nat)) as [E0|E0].
      * rewrite E0 in *. rewrite decide_True; [|by auto].
        change (Z.of_nat 1 / 1048576) with 0 in Hn1. lia.
      * case_decide as Hc.
        -- destruct Hc as [_ [Hc|Hc]]; [lia|].
           revert Hn Hn1 Hc. Z.div_mod_to_equations. lia.
        -- assert (Hm0 : Z.of_nat (S (size (r2i s))) mod 1048576 ≠ 0)
             by (intros Hm; apply Hc; auto).
           revert Hn Hn1 Hm0. Z.div_mod_to_equations. lia.
Qed.

(** The references handed out for the tuples of [l], in order. *)
Lemma rank_self (l : list T) :
  NoDup l → rank l <$> l = (λ k : nat, Z.of_nat (S k)) <$> seq 0 (length l).
Proof.
  intros Hnd. apply list_eq. intros k. rewrite !list_lookup_fmap.
  destruct (l !! k) as [t|] eqn:Hk; simpl.
  - rewrite lookup_seq_lt by (by eapply lookup_lt_Some). simpl.
    f_equal. by apply rank_lookup.
  - rewrite lookup_seq_ge by (by apply lookup_ge_None_1). done.
Qed.

Lemma first_seen_idemp (tuples : list T) :
  first_seen (first_seen tuples) = first_seen tuples.
Proof.
  apply first_seen_NoDup. unfold first_seen.
  assert (Hgen : ∀ l : list T, NoDup l → NoDup (foldl observe l tuples)).
  { induction tuples as [|t tuples IH]; intros l Hl; simpl; [done|].
    apply IH. unfold observe. case_decide; [done|].
    apply NoDup_app. split; [done|]. split; [|apply NoDup_singleton].
    intros x Hx ->%list_elem_of_singleton. done. }
  apply Hgen. constructor.
Qed.

(** X6: the map depends on the distinct tuples in their order of first
    appearance, and on nothing else. Two sequences of calls on a new map that
    all return and see the same distinct tuples in the same order end in the
    same map; in particular packing a tuple again, at any point, changes
    nothing: the sequence ends in the map of the sequence without its
    repetitions, which hands out 1, 2, ... in order. *)
Theorem map_determined_by_first_seen (tuples1 tuples2 : list T) indices1 s1 :
  pack_all bits empty_map tuples1 = Return (indices1, s1) →
  first_seen tuples1 = first_seen tuples2 →
  (∃ indices2, pack_all bits empty_map tuples2 = Return (indices2, s1)) ∧
  pack_all bits empty_map (first_seen tuples1) =
    Return ((λ k : nat, Z.of_nat (S k)) <$>
              seq 0 (length (first_seen tuples1)), s1).
Proof.
  intros Hrun Hsame.
  destruct (pack_all_empty_represents bits bits_range tuples1 indices1 s1 Hrun)
    as [Hr _].
  assert (Hagain : ∀ tuples : list T,
    first_seen tuples = first_seen tuples1 →
    pack_all bits empty_map tuples
    = Return (rank (first_seen tuples1) <$> tuples, s1)).
  { intros tuples Hfs.
    destruct (pack_all_returns bits bits_range [] empty_map tuples)
      as (indices & s & Hrun').
    { by apply represents_empty. }
    { fold (first_seen tuples). rewrite Hfs. apply (rep_room Hr). }
    destruct (pack_all_empty_represents bits bits_range tuples indices s Hrun')
      as [Hr' ->].
    rewrite Hfs in Hr'. rewrite Hrun', Hfs. do 2 f_equal.
    by apply (represents_unique (first_seen tuples1)). }
  split.
  - eexists. by apply Hagain.
  - rewrite (Hagain (first_seen tuples1)) by apply first_seen_idemp.
    by rewrite rank_self by apply (rep_nodup Hr).
Qed.

(** X7: capacity. A sequence of calls on a new map returns exactly when the
    number of its distinct tuples is below the largest value of the reference
    domain; otherwise it stops at the failed assertion, and it never indexes
    the blocks out of their bounds. Every reference returned is positive and
    below that largest value. *)
Theorem pack_all_capacity (tuples : list T) :
  ((∃ indices s, pack_all bits empty_map tuples = Return (indices, s)) ↔
   Z.of_nat (length (first_seen tuples)) < RamDomain_max bits) ∧
  ((∃ s, pack_all bits empty_map tuples = AssertionFailed s) ↔
   RamDomain_max bits ≤ Z.of_nat (length (first_seen tuples))) ∧
  (∀ indices s h,
     pack_all bits empty_map tuples = Return (indices, s) → h ∈ indices →
     0 < h < RamDomain_max bits).
Proof.
  assert (Hret : (∃ indices s,
      pack_all bits empty_map tuples = Return (indices, s)) ↔
    Z.of_nat (length (first_seen tuples)) < RamDomain_max bits).
  { split.
    - intros (indices & s & Hrun).
      destruct (pack_all_empty_represents bits bits_range _ _ _ Hrun) as [Hr _].
      apply (rep_room Hr).
    - intros Hroom. apply (pack_all_returns bits bits_range []); [|done].
      by apply represents_empty. }
  pose proof (pack_all_not_out_of_bounds [] empty_map tuples
                (represents_empty bits bits_range)) as Hoob.
  split; [exact Hret|]. split.
  - split.
    + intros [s Hfail].
      destruct (Z.lt_ge_cases (Z.of_nat (length (first_seen tuples)))
                  (RamDomain_max bits)) as [Hlt|Hge]; [|done].
      apply Hret in Hlt as (indices & s0 & Hrun). congruence.
    + intros Hge.
      destruct (pack_all bits empty_map tuples) as [[indices s]|s|] eqn:E.
      * assert (Z.of_nat (length (first_seen tuples)) < RamDomain_max bits)
          by (apply Hret; eauto). lia.
      * eauto.
      * done.
  - intros indices s h Hrun Hin.
    destruct (pack_all_empty_represents bits bits_range _ _ _ Hrun) as [Hr ->].
    apply list_elem_of_fmap in Hin as (t & -> & Hin).
    apply elem_of_first_seen, list_elem_of_lookup_1 in Hin as [k Hk].
    rewrite (rank_lookup _ _ k) by (done || apply (rep_nodup Hr)).
    pose proof (rep_room Hr). apply lookup_lt_Some in Hk. lia.
Qed.
End further.

(** ** The order in which records reach the record table *)

Section record_order.
Import GeneralRecordMap.

#[local] Instance key_le_total : Total key_le.
Proof. intros p q. unfold key_le. lia. Qed.

#[local] Instance key_le_trans : Transitive key_le.
Proof. intros p q r. unfold key_le. lia. Qed.

(** [entries] lists every entry of the map once, by ascending key. *)
Lemma entries_spec (m : gmap Z (list Z)) :
  Sorted key_le (entries m) ∧ NoDup (entries m) ∧
  ∀ h v, (h, v) ∈ entries m ↔ m !! h = Some v.
Proof.
  unfold entries. split; [apply (Sorted_merge_sort key_le)|]. split.
  - rewrite merge_sort_Permutation. apply NoDup_map_to_list.
  - intros h v. rewrite merge_sort_Permutation. apply elem_of_map_to_list.
Qed.

(** A sorted list of all entries is the list [entries] computes. *)
Lemma entries_unique (m : gmap Z (list Z)) (l : list (Z * list Z)) :
  Sorted key_le l → NoDup l → (∀ h v, (h, v) ∈ l ↔ m !! h = Some v) →
  entries m = l.
Proof.
  intros Hsorted Hnd Helem. destruct (entries_spec m) as (Hs & Hn & He).
  apply (Sorted_unique_strong key_le); [|done..|].
  - intros [h1 v1] [h2 v2] H1%He H2%Helem Hle1 Hle2.
    unfold key_le in *. simpl in *. assert (h1 = h2) as -> by lia. congruence.
  - apply NoDup_Permutation; [done..|].
    intros [h v]. by rewrite He, Helem.
Qed.

Lemma add_all_log (maps : list GeneralRecordMap.t) (log : list (Z * list Z)) :
  add_all log_record maps log =
  log ++ (maps ≫= λ recordMap, entries (getRecordReferences recordMap)).
Proof.
  revert log. induction maps as [|m maps IH]; intros log.
  - simpl. by rewrite app_nil_r.
  - rewrite bind_cons. unfold add_all in *. simpl. rewrite IH. clear IH.
    rewrite app_assoc. f_equal.
    generalize (entries (getRecordReferences m)). intros l.
    revert log. induction l as [|[h v] l IH]; intros log; simpl.
    + by rewrite app_nil_r.
    + rewrite IH. unfold log_record. by rewrite <- app_assoc.
Qed.

Lemma add_all_replay {R : Type} (addRecord : Z → list Z → R → R)
    (maps : list GeneralRecordMap.t) (table : R) :
  add_all addRecord maps table =
  add_records addRecord
    (maps ≫= λ recordMap, entries (getRecordReferences recordMap)) table.
Proof.
  unfold add_all, add_records. revert table.
  induction maps as [|m maps IH]; intros table; [done|].
  rewrite bind_cons. simpl. by rewrite foldl_app, IH.
Qed.

Lemma elem_of_records_of {T : Type} `{RamTuple T} (l : list T) h v :
  (h, v) ∈ records_of l ↔
  ∃ (k : nat) t, l !! k = Some t ∧ h = Z.of_nat (S k) ∧ v = toVector t.
Proof.
  unfold records_of. rewrite elem_of_lookup_imap. split.
  - intros (k & t & [= -> ->] & Hk). eauto.
  - intros (k & t & Hk & -> & ->). eauto.
Qed.

Lemma records_of_NoDup {T : Type} `{RamTuple T} (l : list T) :
  NoDup (records_of l).
Proof.
  apply NoDup_alt. intros i j [h v]. unfold records_of.
  rewrite !list_lookup_imap.
  destruct (l !! i) as [ti|]; [|done]. destruct (l !! j) as [tj|]; [|done].
  simpl. intros [= <- <-] [= E _]. lia.
Qed.

Lemma imap_Sorted {T : Type} (f : nat → T → Z * list Z) (c : Z) (l : list T) :
  (∀ k t, (f k t).1 = c + Z.of_nat k) → Sorted key_le (imap f l).
Proof.
  revert f c. induction l as [|x l IH]; intros f c Hkey.
  - constructor.
  - rewrite imap_cons. constructor.
    + apply (IH _ (c + 1)). intros k t. simpl. rewrite Hkey. lia.
    + destruct l as [|y l]; [constructor|]. rewrite imap_cons. constructor.
      unfold key_le. simpl. rewrite !Hkey. lia.
Qed.

Lemma records_of_Sorted {T : Type} `{RamTuple T} (l : list T) :
  Sorted key_le (records_of l).
Proof. apply (imap_Sorted _ 1). intros k t. simpl. lia. Qed.
End record_order.

(** X10: one call of getRecordTable calls addRecord once for every entry of
    the getRecordReferences of every registered map, map after map in the
    order of the registry and, within a map, by ascending reference; the
    registry is left as it is and the table returned is the static one.
    Whatever the table type, the table returned is the one these calls of
    addRecord make of the table of before. *)
Theorem getRecordTable_adds_each_entry_once :
  (∀ m : gmap Z (list Z),
     Sorted GeneralRecordMap.key_le (GeneralRecordMap.entries m) ∧
     NoDup (GeneralRecordMap.entries m) ∧
     ∀ h v, (h, v) ∈ GeneralRecordMap.entries m ↔ m !! h = Some v) ∧
  (∀ st : GeneralRecordMap.statics (list (Z * list Z)),
     (GeneralRecordMap.getRecordTable log_record st).1 =
     GeneralRecordMap.recordTable st ++
     (GeneralRecordMap.createdMaps st ≫= λ recordMap,
        GeneralRecordMap.entries
          (GeneralRecordMap.getRecordReferences recordMap))) ∧
  (∀ (R : Type) (addRecord : Z → list Z → R → R)
     (st : GeneralRecordMap.statics R),
     let result := GeneralRecordMap.getRecordTable addRecord st in
     result.1 =
       add_records addRecord
         (GeneralRecordMap.getRecordTable
            log_record
            {| GeneralRecordMap.createdMaps := GeneralRecordMap.createdMaps st;
               GeneralRecordMap.recordTable := [] |}).1
         (GeneralRecordMap.recordTable st) ∧
     GeneralRecordMap.createdMaps result.2 = GeneralRecordMap.createdMaps st ∧
     GeneralRecordMap.recordTable result.2 = result.1).
Proof.
  split; [exact entries_spec|]. split.
  - intros st. rewrite getRecordTable_eq. cbv zeta. cbn [fst].
    unfold GeneralRecordMap.getMaps. apply add_all_log.
  - intros R addRecord st. rewrite !getRecordTable_eq. cbv zeta.
    cbn [fst snd GeneralRecordMap.createdMaps GeneralRecordMap.recordTable].
    split; [|done]. unfold GeneralRecordMap.getMaps.
    cbn [GeneralRecordMap.createdMaps].
    by rewrite add_all_log, add_all_replay.
Qed.

Section record_order_of_a_map.
Context {T : Type} `{RamTuple T}.
Variable bits : Z.
Hypothesis bits_range : 1 < bits ≤ 64.

Lemma entries_represents (l : list T) s :
  represents bits l s →
  GeneralRecordMap.entries (getRecordReferences s) = records_of l.
Proof.
  intros Hr. apply entries_unique.
  - apply records_of_Sorted.
  - apply records_of_NoDup.
  - intros h v. rewrite elem_of_records_of, getRecordReferences_r2i.
    destruct (getRecordReferences_fold (r2i s)) as [Hlook _].
    { intros t1 t2 h'. by apply (represents_inj bits l s). }
    rewrite Hlook. split.
    + intros (k & t & Hk & -> & ->). exists t. split; [|done].
      apply (rep_r2i Hr). eauto.
    + intros (t & Ht & ->). apply (rep_r2i Hr) in Ht as (k & Hk & ->). eauto.
Qed.

(** X9: the records of a map reach the record table in the order of their
    references. After a sequence of calls of pack on a new map that all
    return, the entries of getRecordReferences, by ascending reference, are
    the fields of the first distinct tuple under 1, of the second under 2,
    and so on; with that map alone in the registry, getRecordTable calls
    addRecord on exactly these, in this order. *)
Theorem records_in_reference_order (tuples : list T) indices s :
  pack_all bits empty_map tuples = Return (indices, s) →
  GeneralRecordMap.entries (getRecordReferences s)
    = records_of (first_seen tuples) ∧
  length (records_of (first_seen tuples)) = size (r2i s) ∧
  (∀ (k : nat) t, first_seen tuples !! k = Some t →
     records_of (first_seen tuples) !! k = Some (Z.of_nat k + 1, toVector t)) ∧
  (∀ (R : Type) (addRecord : Z → list Z → R → R) (table : R),
     (GeneralRecordMap.getRecordTable
        addRecord
        {| GeneralRecordMap.createdMaps := [as_general s];
           GeneralRecordMap.recordTable := table |}).1
     = add_records addRecord (records_of (first_seen tuples)) table).
Proof.
  intros Hrun.
  destruct (pack_all_empty_represents bits bits_range tuples indices s Hrun)
    as [Hr _].
  pose proof (entries_represents _ _ Hr) as Hentries.
  split; [exact Hentries|]. split; [|split].
  - unfold records_of. by rewrite length_imap, (rep_size Hr).
  - intros k t Hk. unfold records_of. rewrite list_lookup_imap, Hk. simpl.
    do 2 f_equal. lia.
  - intros R addRecord table. rewrite getRecordTable_eq. cbv zeta. cbn [fst].
    unfold GeneralRecordMap.getMaps.
    cbn [GeneralRecordMap.createdMaps GeneralRecordMap.recordTable].
    rewrite add_all_replay, bind_singleton. unfold as_general.
    cbn [GeneralRecordMap.getRecordReferences]. by rewrite Hentries.
Qed.
End record_order_of_a_map.

(** ** The general template on the empty tuple *)



(** ** The functions of the interface *)

Section interface.
Context {T : Type} `{RamTuple T}.
Variable bits : Z.
Variable self : positive.
Hypothesis bits_range : 1 < bits ≤ 64.

Abbreviation world := (Interface.world (T := T)).

(** The map [getRecordMap] returns. *)
Lemma getRecordMap_cases (w : world) :
  (∃ m, Interface.map w = Some m ∧ Interface.getRecordMap self w = (m, w)) ∨
  (Interface.map w = None ∧
   Interface.getRecordMap self w =
   (empty_map,
    Interface.mkWorld (Some empty_map) ({[ self ]} ∪ Interface.createdMaps w)
                      (Interface.others w))).
Proof.
  unfold Interface.getRecordMap. destruct (Interface.map w) as [m|]; eauto.
Qed.

(** A call of [pack] of the interface is a call of [pack] of the map that
    [getRecordMap] returns. *)
Lemma interface_pack_Return (w : world) t h w' :
  Interface.pack bits self w t = Return (h, w') ↔
  ∃ m', pack bits (Interface.getRecordMap self w).1 t = Return (h, m') ∧
        w' = Interface.mkWorld
               (Some m')
               (Interface.createdMaps (Interface.getRecordMap self w).2)
               (Interface.others (Interface.getRecordMap self w).2).
Proof.
  unfold Interface.pack.
  destruct (Interface.getRecordMap self w) as [m w1]. cbn [fst snd].
  destruct (pack bits m t) as [[h0 m0]| |]; split;
    try done; try (by intros (? & ? & ?)).
  - intros [= <- <-]. eauto.
  - intros (m' & [= <- <-] & ->). done.
Qed.

(** In a world that was reached, the map is registered once it is
    constructed, not before, and it is a map that can be reached. *)
Lemma reached_invariant (w : world) :
  Interface.reached bits self w →
  (Interface.map w = None ∧ self ∉ Interface.createdMaps w) ∨
  (∃ m, Interface.map w = Some m ∧ self ∈ Interface.createdMaps w ∧
        reachable bits m).
Proof.
  induction 1 as [w Hnone Hself|w t h w' _ IH Hpack|w ref _ IH].
  - by left.
  - right. apply interface_pack_Return in Hpack as (m' & Hpack & ->).
    exists m'. cbn. split; [done|].
    destruct (getRecordMap_cases w) as [(m & Hm & E)|[Hm E]];
      rewrite E in *; cbn in *.
    + destruct IH as [[Hn _]|(m0 & Hm0 & Hin & Hreach)]; [congruence|].
      assert (m0 = m) as -> by congruence.
      split; [done|]. by eapply reachable_pack.
    + split; [by apply elem_of_union_l, elem_of_singleton|].
      eapply reachable_pack; [constructor|done].
  - right. unfold Interface.unpack.
    destruct (getRecordMap_cases w) as [(m & Hm & E)|[Hm E]]; rewrite E; cbn.
    + destruct IH as [[Hn _]|(m0 & Hm0 & Hin & Hreach)]; [congruence|]. eauto.
    + exists empty_map. split; [done|].
      split; [by apply elem_of_union_l, elem_of_singleton|]. constructor.
Qed.

(** The map [getRecordMap] returns can be reached, and the world it leaves
    holds that map, registered. *)
Lemma getRecordMap_reached (w : world) :
  Interface.reached bits self w →
  let r := Interface.getRecordMap self w in
  reachable bits r.1 ∧ Interface.map r.2 = Some r.1 ∧
  self ∈ Interface.createdMaps r.2 ∧
  Interface.createdMaps r.2 = {[ self ]} ∪ Interface.createdMaps w ∧
  Interface.others r.2 = Interface.others w ∧
  (is_Some (Interface.map w) → r.2 = w).
Proof.
  intros Hw. cbv zeta.
  destruct (getRecordMap_cases w) as [(m & Hm & E)|[Hm E]]; rewrite E; cbn.
  - destruct (reached_invariant w Hw) as [[Hn _]|(m0 & Hm0 & Hin & Hreach)];
      [congruence|].
    assert (m0 = m) as -> by congruence.
    repeat split; try done.
    symmetry. by apply subseteq_union_1_L, singleton_subseteq_l.
  - repeat split; try done;
      [constructor|by apply elem_of_union_l, elem_of_singleton|].
    intros [m Hm']. congruence.
Qed.

(** A call of [pack] that returns leaves the entries of the forward index as
    they are. *)
Lemma pack_keeps_index (s : RecordMap T) t h s' t0 h0 :
  pack bits s t = Return (h, s') →
  r2i s !! t0 = Some h0 → r2i s' !! t0 = Some h0.
Proof.
  unfold pack. destruct (r2i s !! t) as [h1|] eqn:Hfound.
  - by intros [= <- <-].
  - cbv zeta. destruct (_ =? RamDomain_max bits); [done|].
    cbn [r2i i2r].
    match goal with
    | |- context [@lookup nat _ _ _ ?i ?blocks] =>
        destruct (@lookup nat _ _ _ i blocks) as [blk|]; [|done]
    end.
    intros [= <- <-] Ht0. cbn [r2i]. rewrite lookup_insert_ne; [done|].
    intros ->. congruence.
Qed.

Lemma follows_reached (w w' : world) :
  Interface.reached bits self w → Interface.follows bits self w w' →
  Interface.reached bits self w'.
Proof.
  intros Hw. induction 1 as [|w1 w2 t h w3 _ IH Hpack|w1 w2 ref _ IH].
  - done.
  - eapply Interface.reached_pack; [by apply IH|done].
  - apply Interface.reached_unpack. by apply IH.
Qed.

(** Once the map is constructed, later calls keep its entries, the registry
    and the other maps. *)
Lemma follows_keeps (w w' : world) m :
  Interface.follows bits self w w' → Interface.map w = Some m →
  ∃ m', Interface.map w' = Some m' ∧
        (∀ t h, r2i m !! t = Some h → r2i m' !! t = Some h) ∧
        Interface.createdMaps w' = Interface.createdMaps w ∧
        Interface.others w' = Interface.others w.
Proof.
  intros Hf Hm. induction Hf as [|w1 w2 t h w3 _ IH Hpack|w1 w2 ref _ IH].
  - exists m. done.
  - destruct (IH Hm) as (m2 & Hm2 & Hkeep & Hc & Ho).
    apply interface_pack_Return in Hpack as (m3 & Hpack & ->).
    destruct (getRecordMap_cases w2) as [(m2' & Hm2' & E)|[Hn _]];
      [|congruence].
    rewrite E in *. cbn in *. assert (m2' = m2) as -> by congruence.
    exists m3. split; [done|]. split; [|done].
    intros t0 h0 Ht0. eapply pack_keeps_index; [done|]. by apply Hkeep.
  - destruct (IH Hm) as (m2 & Hm2 & Hkeep & Hc & Ho).
    unfold Interface.unpack.
    destruct (getRecordMap_cases w2) as [(m2' & Hm2' & E)|[Hn _]];
      [|congruence].
    rewrite E. cbn. exists m2. done.
Qed.

(** What a call of [pack] that returned means for every later world. *)
Lemma interface_pack_later (w : world) t h w' w'' :
  Interface.reached bits self w →
  Interface.pack bits self w t = Return (h, w') →
  Interface.follows bits self w' w'' →
  ∃ m'', Interface.map w'' = Some m'' ∧ reachable bits m'' ∧
         r2i m'' !! t = Some h ∧ self ∈ Interface.createdMaps w''.
Proof.
  intros Hw Hpack Hf.
  assert (Hw' : Interface.reached bits self w')
    by (by eapply Interface.reached_pack).
  pose proof (follows_reached w' w'' Hw' Hf) as Hw''.
  apply interface_pack_Return in Hpack as (m' & Hpack & ->).
  destruct (follows_keeps _ _ m' Hf eq_refl) as (m'' & Hm'' & Hkeep & _).
  exists m''. split; [done|].
  destruct (reached_invariant w'' Hw'')
    as [[Hn _]|(m0 & Hm0 & Hin & Hreach)]; [congruence|].
  assert (m0 = m'') as -> by congruence.
  split; [done|]. split; [|done].
  apply Hkeep. by eapply pack_returned_found.
Qed.

(** X11: round trip through the functions of the interface. Once pack has
    returned reference h for a tuple, then after any further calls of pack
    and unpack, unpack of h returns that tuple and changes nothing, and pack
    of the tuple returns h again and changes nothing; h is positive. *)
Theorem interface_round_trip (w : world) t h w' w'' :
  Interface.reached bits self w →
  Interface.pack bits self w t = Return (h, w') →
  Interface.follows bits self w' w'' →
  Interface.unpack self w'' h = (Some t, w'') ∧
  Interface.pack bits self w'' t = Return (h, w'') ∧
  0 < h.
Proof.
  intros Hw Hpack Hf.
  destruct (interface_pack_later w t h w' w'' Hw Hpack Hf)
    as (m'' & Hm'' & Hreach & Ht & _).
  destruct (reachable_represents bits bits_range m'' Hreach) as [l Hr].
  destruct (proj1 (rep_r2i Hr t h) Ht) as (k & Hk & ->).
  destruct (getRecordMap_cases w'') as [(m & Hm & E)|[Hn _]]; [|congruence].
  assert (m = m'') as -> by congruence.
  split; [|split; [|lia]].
  - unfold Interface.unpack. rewrite E. f_equal. by eapply unpack_represents.
  - apply interface_pack_Return. exists m''. rewrite E. cbn [fst snd].
    split; [by apply pack_found|]. destruct w''; cbn in *. congruence.
Qed.

(** X12: the map of a tuple type is constructed and registered by the first
    call of the interface, whichever it is, and only by it. In a world that
    was reached, the address of the map is in createdMaps exactly when the
    map is constructed; unpack as the first call constructs the empty map,
    registers it and indexes its blocks out of their bounds; unpack on a
    constructed map changes nothing; a call of pack that returns leaves the
    map constructed and registered, and the registry as it was when the map
    was there before. No call touches the other maps or removes a pointer. *)
Theorem map_constructed_on_first_use (w : world) :
  Interface.reached bits self w →
  (Interface.map w = None ↔ self ∉ Interface.createdMaps w) ∧
  (∀ ref,
     Interface.map w = None →
     Interface.unpack self w ref =
     (None, Interface.mkWorld (Some empty_map)
                              ({[ self ]} ∪ Interface.createdMaps w)
                              (Interface.others w))) ∧
  (∀ ref m,
     Interface.map w = Some m →
     Interface.unpack self w ref = (unpack m ref, w)) ∧
  (∀ t h w',
     Interface.pack bits self w t = Return (h, w') →
     is_Some (Interface.map w') ∧
     Interface.createdMaps w' = {[ self ]} ∪ Interface.createdMaps w ∧
     (is_Some (Interface.map w) →
      Interface.createdMaps w' = Interface.createdMaps w) ∧
     Interface.others w' = Interface.others w).
Proof.
  intros Hw. split; [|split; [|split]].
  - destruct (reached_invariant w Hw) as [[Hn Hs]|(m & Hm & Hin & _)].
    + done.
    + split; [congruence|done].
  - intros ref Hn. unfold Interface.unpack.
    destruct (getRecordMap_cases w) as [(m & Hm & _)|[_ E]]; [congruence|].
    rewrite E. done.
  - intros ref m Hm. unfold Interface.unpack.
    destruct (getRecordMap_cases w) as [(m' & Hm' & E)|[Hn _]]; [|congruence].
    rewrite E. congruence.
  - intros t h w' Hpack.
    apply interface_pack_Return in Hpack as (m' & _ & ->). cbn.
    destruct (getRecordMap_reached w Hw) as (_ & _ & _ & Hc & Ho & Hsame).
    split; [by eexists|]. split; [done|]. split; [|done].
    intros Hsome. by rewrite (Hsame Hsome).
Qed.

(** X13: what is packed reaches the record table. Once pack has returned
    reference h for a tuple, then after any further calls of pack and unpack,
    getRecordTable calls addRecord on h with the fields of the tuple. *)
Theorem packed_record_reaches_table (w : world) t h w' w''
    (log : list (Z * list Z)) :
  Interface.reached bits self w →
  Interface.pack bits self w t = Return (h, w') →
  Interface.follows bits self w' w'' →
  (h, toVector t) ∈
    (GeneralRecordMap.getRecordTable log_record
                                     (Interface.statics self w'' log)).1.
Proof.
  intros Hw Hpack Hf.
  destruct (interface_pack_later w t h w' w'' Hw Hpack Hf)
    as (m'' & Hm'' & Hreach & Ht & Hin).
  destruct (reachable_represents bits bits_range m'' Hreach) as [l Hr].
  rewrite getRecordTable_eq. cbv zeta. cbn [fst].
  unfold GeneralRecordMap.getMaps, Interface.statics.
  cbn [GeneralRecordMap.createdMaps GeneralRecordMap.recordTable].
  rewrite add_all_log. apply elem_of_app. right.
  apply list_elem_of_bind. exists (as_general m''). split.
  - apply entries_spec. unfold as_general.
    cbn [GeneralRecordMap.getRecordReferences].
    rewrite getRecordReferences_r2i.
    destruct (getRecordReferences_fold (r2i m'')) as [Hlook _].
    { intros t1 t2 h'. by apply (represents_inj bits l m''). }
    apply Hlook. eauto.
  - unfold Interface.registered_maps. apply list_elem_of_omap.
    exists self. split.
    + rewrite merge_sort_Permutation. by apply elem_of_elements.
    + unfold Interface.object_at. rewrite decide_True by done.
      by rewrite Hm''.
Qed.
End interface.

(** ** References of different tuple types *)

(** X14: references are relative to the tuple type, and the record table is
    handed them as they are. Two maps that can be reached, of any two tuple
    types, both hold every reference from 1 up to the smaller of their
    sizes; with the two in the registry, getRecordTable calls addRecord on
    that reference twice, first with the fields of the tuple of the first
    map, then with those of the tuple of the second. *)
Theorem references_shared_between_maps
    {T1 : Type} `{RamTuple T1} {T2 : Type} `{RamTuple T2}
    (bits : Z) (s1 : RecordMap T1) (s2 : RecordMap T2) (h : Z) :
  1 < bits ≤ 64 →
  reachable bits s1 → reachable bits s2 →
  1 ≤ h ≤ Z.of_nat (size (r2i s1)) → 1 ≤ h ≤ Z.of_nat (size (r2i s2)) →
  ∃ t1 t2 records1 records2,
    r2i s1 !! t1 = Some h ∧ r2i s2 !! t2 = Some h ∧
    (h, toVector t1) ∈ records1 ∧ (h, toVector t2) ∈ records2 ∧
    ∀ log : list (Z * list Z),
      (GeneralRecordMap.getRecordTable
         log_record
         {| GeneralRecordMap.createdMaps := [as_general s1; as_general s2];
            GeneralRecordMap.recordTable := log |}).1
      = log ++ records1 ++ records2.
Proof.
  intros Hb Hs1 Hs2 Hh1 Hh2.
  destruct (reachable_represents bits Hb s1 Hs1) as [l1 Hr1].
  destruct (reachable_represents bits Hb s2 Hs2) as [l2 Hr2].
  destruct (represents_handle_assigned bits Hb l1 s1 h Hr1 Hh1) as (t1 & Ht1 & _).
  destruct (represents_handle_assigned bits Hb l2 s2 h Hr2 Hh2) as (t2 & Ht2 & _).
  exists t1, t2, (records_of l1), (records_of l2).
  split; [done|]. split; [done|].
  apply (rep_r2i Hr1) in Ht1 as (k1 & Hk1 & ->).
  apply (rep_r2i Hr2) in Ht2 as (k2 & Hk2 & E2).
  split; [apply elem_of_records_of; eauto|].
  split; [apply elem_of_records_of; eauto|].
  intros log. rewrite getRecordTable_eq. cbv zeta. cbn [fst].
  unfold GeneralRecordMap.getMaps.
  cbn [GeneralRecordMap.createdMaps GeneralRecordMap.recordTable].
  rewrite add_all_log, bind_cons, bind_singleton. unfold as_general.
  cbn [GeneralRecordMap.getRecordReferences].
  by rewrite (entries_represents bits l1 s1 Hr1),
             (entries_represents bits l2 s2 Hr2).
Qed.

(** ** Instances of the further properties *)

Lemma one_tuple_packed :
  pack_all 32 empty_map [(7, 8)] = Return ([1], packed 32 [(7, 8)]).
Proof. vm_compute. reflexivity. Qed.

Lemma one_tuple_reachable : reachable 32 (packed 32 [(7, 8)]).
Proof.
  apply (pack_all_reachable 32 empty_map [(7, 8)] [1]);
    [constructor|exact one_tuple_packed].
Qed.

Lemma getRecordReferences_inverts_forward_index_witness :
  reachable 32 (packed 32 [(7, 8)]) ∧
  size (getRecordReferences (packed 32 [(7, 8)]))
    = size (r2i (packed 32 [(7, 8)])).
Proof.
  split; [exact one_tuple_reachable|].
  exact (proj2 (proj2 (getRecordReferences_inverts_forward_index
                         32 bits32 _ one_tuple_reachable))).
Defined.

Lemma getRecordReferences_agrees_with_unpack_witness :
  reachable 32 (packed 32 [(7, 8)]) ∧
  getRecordReferences (packed 32 [(7, 8)]) !! 1 = Some [7; 8] ∧
  ∃ t, unpack (packed 32 [(7, 8)]) 1 = Some t ∧ toVector t = [7; 8].
Proof.
  assert (Hv : getRecordReferences (packed 32 [(7, 8)]) !! 1 = Some [7; 8])
    by (vm_compute; reflexivity).
  split; [exact one_tuple_reachable|]. split; [exact Hv|].
  exact (getRecordReferences_agrees_with_unpack
           32 bits32 _ _ _ one_tuple_reachable Hv).
Defined.

Lemma pack_all_keeps_references_witness :
  reachable 32 (packed 32 [(7, 8)]) ∧
  pack_all 32 (packed 32 [(7, 8)]) [(4, 5); (7, 8)]
    = Return ([2; 1], packed 32 [(7, 8); (4, 5)]) ∧
  (length (i2r (packed 32 [(7, 8)]))
   ≤ length (i2r (packed 32 [(7, 8); (4, 5)])))%nat.
Proof.
  assert (Hrun : pack_all 32 (packed 32 [(7, 8)]) [(4, 5); (7, 8)]
                 = Return ([2; 1], packed 32 [(7, 8); (4, 5)]))
    by (vm_compute; reflexivity).
  split; [exact one_tuple_reachable|]. split; [exact Hrun|].
  exact (proj1 (proj2 (proj2 (pack_all_keeps_references
                                32 bits32 _ _ _ _ one_tuple_reachable Hrun)))).
Defined.

Lemma unpack_every_reference_witness :
  reachable 32 (packed 32 [(7, 8)]) ∧ - 2 ^ 63 ≤ -1 < 2 ^ 63 ∧
  unpack (packed 32 [(7, 8)]) (-1) = None.
Proof.
  assert (Hh : - 2 ^ 63 ≤ -1 < 2 ^ 63) by lia.
  split; [exact one_tuple_reachable|]. split; [exact Hh|].
  apply (proj1 (proj2 (unpack_every_reference
                         32 bits32 _ (-1) one_tuple_reachable Hh))).
  lia.
Defined.

Lemma blocks_allocated_on_demand_witness :
  reachable 32 (empty_map : RecordMap (Z * Z)) ∧
  pack 32 empty_map (7, 8) = Return (1, packed 32 [(7, 8)]) ∧
  Z.of_nat (length (i2r (packed 32 [(7, 8)])))
    = Z.of_nat (size (r2i (packed 32 [(7, 8)]))) / BLOCK_SIZE + 1.
Proof.
  assert (Hreach : reachable 32 (empty_map : RecordMap (Z * Z)))
    by constructor.
  assert (Hpack : pack 32 empty_map (7, 8) = Return (1, packed 32 [(7, 8)]))
    by (vm_compute; reflexivity).
  split; [exact Hreach|]. split; [exact Hpack|].
  exact (proj1 (proj2 (blocks_allocated_on_demand
                         32 bits32 _ _ _ _ Hreach Hpack))).
Defined.

Lemma map_determined_by_first_seen_witness :
  let tuples1 := [(1, 2, 3); (1, 2, 3); (4, 5, 6)] in
  let tuples2 := [(1, 2, 3); (4, 5, 6); (4, 5, 6); (1, 2, 3)] in
  pack_all 32 empty_map tuples1 = Return ([1; 1; 2], packed 32 tuples1) ∧
  first_seen tuples1 = first_seen tuples2 ∧
  ∃ indices2,
    pack_all 32 empty_map tuples2 = Return (indices2, packed 32 tuples1).
Proof.
  cbv zeta.
  assert (Hrun : pack_all 32 empty_map [(1, 2, 3); (1, 2, 3); (4, 5, 6)]
                 = Return ([1; 1; 2],
                           packed 32 [(1, 2, 3); (1, 2, 3); (4, 5, 6)]))
    by (vm_compute; reflexivity).
  assert (Hsame : first_seen [(1, 2, 3); (1, 2, 3); (4, 5, 6)]
                  = first_seen [(1, 2, 3); (4, 5, 6); (4, 5, 6); (1, 2, 3)])
    by (vm_compute; reflexivity).
  split; [exact Hrun|]. split; [exact Hsame|].
  exact (proj1 (map_determined_by_first_seen 32 bits32 _ _ _ _ Hrun Hsame)).
Defined.

Lemma pack_all_capacity_witness :
  1 < 32 ≤ 64 ∧
  Z.of_nat (length (first_seen [(7, 8)])) < RamDomain_max 32 ∧
  ∃ indices s, pack_all 32 empty_map [(7, 8)] = Return (indices, s).
Proof.
  assert (Hroom : Z.of_nat (length (first_seen [(7, 8)])) < RamDomain_max 32)
    by (vm_compute; reflexivity).
  split; [exact bits32|]. split; [exact Hroom|].
  exact (proj2 (proj1 (pack_all_capacity 32 bits32 [(7, 8)])) Hroom).
Defined.


Lemma records_in_reference_order_witness :
  let tuples := [(4, 5); (7, 8); (4, 5)] in
  pack_all 32 empty_map tuples = Return ([1; 2; 1], packed 32 tuples) ∧
  GeneralRecordMap.entries (getRecordReferences (packed 32 tuples))
    = records_of (first_seen tuples).
Proof.
  cbv zeta.
  assert (Hrun : pack_all 32 empty_map [(4, 5); (7, 8); (4, 5)]
                 = Return ([1; 2; 1], packed 32 [(4, 5); (7, 8); (4, 5)]))
    by (vm_compute; reflexivity).
  split; [exact Hrun|].
  exact (proj1 (records_in_reference_order 32 bits32 _ _ _ Hrun)).
Defined.

Lemma start_world_reached : Interface.reached 32 1 start_world.
Proof. apply Interface.reached_start; [done|]. apply not_elem_of_empty. Qed.

Lemma start_world_pack :
  Interface.pack 32 1 start_world (7, 8)
  = Return (1, Interface.mkWorld (Some (packed 32 [(7, 8)])) {[ 1%positive ]} ∅).
Proof. vm_compute. reflexivity. Qed.

Lemma interface_round_trip_witness :
  let w' := Interface.mkWorld (Some (packed 32 [(7, 8)])) {[ 1%positive ]} ∅ in
  Interface.reached 32 1 start_world ∧
  Interface.pack 32 1 start_world (7, 8) = Return (1, w') ∧
  Interface.follows 32 1 w' w' ∧
  Interface.unpack 1 w' 1 = (Some (7, 8), w').
Proof.
  cbv zeta.
  split; [exact start_world_reached|]. split; [exact start_world_pack|].
  split; [apply Interface.follows_refl|].
  exact (proj1 (interface_round_trip 32 1 bits32 _ _ _ _ _
                  start_world_reached start_world_pack
                  (Interface.follows_refl 32 1 _))).
Defined.

Lemma map_constructed_on_first_use_witness :
  Interface.reached 32 1 start_world ∧
  (Interface.map start_world = None ↔
   1%positive ∉ Interface.createdMaps start_world).
Proof.
  split; [exact start_world_reached|].
  exact (proj1 (map_constructed_on_first_use 32 1 _ start_world_reached)).
Defined.

Lemma packed_record_reaches_table_witness :
  let w' := Interface.mkWorld (Some (packed 32 [(7, 8)])) {[ 1%positive ]} ∅ in
  Interface.reached 32 1 start_world ∧
  Interface.pack 32 1 start_world (7, 8) = Return (1, w') ∧
  Interface.follows 32 1 w' w' ∧
  (1, toVector (7, 8)) ∈
    (GeneralRecordMap.getRecordTable log_record
                                     (Interface.statics 1 w' [])).1.
Proof.
  cbv zeta.
  split; [exact start_world_reached|]. split; [exact start_world_pack|].
  split; [apply Interface.follows_refl|].
  exact (packed_record_reaches_table 32 1 bits32 _ _ _ _ _ []
           start_world_reached start_world_pack
           (Interface.follows_refl 32 1 _)).
Defined.

Lemma references_shared_between_maps_witness :
  1 < 32 ≤ 64 ∧
  reachable 32 (packed 32 [(7, 8)]) ∧ reachable 32 (packed 32 [(7, 8)]) ∧
  1 ≤ 1 ≤ Z.of_nat (size (r2i (packed 32 [(7, 8)]))) ∧
  ∃ (t1 t2 : Z * Z) records1 records2,
    r2i (packed 32 [(7, 8)]) !! t1 = Some 1 ∧
    r2i (packed 32 [(7, 8)]) !! t2 = Some 1 ∧
    (1, toVector t1) ∈ records1 ∧ (1, toVector t2) ∈ records2 ∧
    ∀ log : list (Z * list Z),
      (GeneralRecordMap.getRecordTable
         log_record
         {| GeneralRecordMap.createdMaps :=
              [as_general (packed 32 [(7, 8)]);
               as_general (packed 32 [(7, 8)])];
            GeneralRecordMap.recordTable := log |}).1
      = log ++ records1 ++ records2.
Proof.
  assert (Hh : 1 ≤ 1 ≤ Z.of_nat (size (r2i (packed 32 [(7, 8)]))))
    by (vm_compute; split; discriminate).
  split; [exact bits32|]. split; [exact one_tuple_reachable|].
  split; [exact one_tuple_reachable|]. split; [exact Hh|].
  exact (references_shared_between_maps
           32 _ _ 1 bits32 one_tuple_reachable one_tuple_reachable Hh Hh).
Defined.
